(** * spdb: the Entry value model, its containers, path walking and
      backend resolution

    A shallow embedding of [source/db/Entry.cpp] (namespace [sp::db]) and of
    the older in-memory interface of [source/Entry.cpp] (namespace [sp]).

    C++ objects that are reached through pointers or references ([Entry],
    [EntryObject], [EntryArray]) live in an explicit store and are named by
    their address; a member function becomes a state-passing function on
    that store.  A call either returns, throws a C++ exception (the store
    keeps every mutation made before the throw), or leaves the model. *)

From Stdlib Require Import Ascii.
From stdpp Require Import gmap strings list fin_maps.

Set Warnings "-register-all".

(* ===================================================================== *)
(** * Outcomes of a C++ call                                              *)
(* ===================================================================== *)

Module Cxx.

(** The exception classes the sources throw. *)
Inductive exn :=
| runtime_error (what : string)   (* std::runtime_error(what) *)
| out_of_range                    (* std::out_of_range *)
| bad_variant_access              (* std::bad_variant_access, from std::get *)
| length_error.                   (* std::length_error, from std::vector *)

(** Ways in which an execution leaves the model without a C++ result. *)
Inductive halt :=
| undefined_behaviour   (* the C++ standard gives the call no meaning *)
| not_implemented       (* the NOT_IMPLEMENTED macro of utility/Logger.h was reached *)
| plugin_call           (* a virtual call into a backend created by the Factory *)
| out_of_fuel.          (* the recursion budget of the model is used up *)

Inductive outcome (S A : Type) :=
| Ret (a : A) (s : S)
| Throw (e : exn) (s : S)
| Halt (h : halt).
Arguments Ret {S A} a s.
Arguments Throw {S A} e s.
Arguments Halt {S A} h.

Definition M (S A : Type) : Type := S -> outcome S A.

Definition ret {S A} (a : A) : M S A := fun s => Ret a s.
Definition throw {S A} (e : exn) : M S A := fun s => Throw e s.
Definition halt_with {S A} (h : halt) : M S A := fun _ => Halt h.
Definition bind {S A B} (m : M S A) (k : A -> M S B) : M S B :=
  fun s => match m s with
           | Ret a s' => k a s'
           | Throw e s' => Throw e s'
           | Halt h => Halt h
           end.
Definition get {S} : M S S := fun s => Ret s s.
Definition modify {S} (f : S -> S) : M S unit := fun s => Ret tt (f s).

(** The store in which an outcome leaves the program, when it has one. *)
Definition final_store {S A} (o : outcome S A) : option S :=
  match o with
  | Ret _ s => Some s
  | Throw _ s => Some s
  | Halt _ => None
  end.

End Cxx.
Import Cxx.

Declare Scope cxx_scope.
Delimit Scope cxx_scope with cxx.
Notation "x <- c1 ;; c2" := (bind c1 (fun x => c2))
  (at level 100, c1 at next level, right associativity) : cxx_scope.
Notation "c1 ;;; c2" := (bind c1 (fun _ => c2))
  (at level 100, right associativity) : cxx_scope.
Local Open Scope cxx_scope.

(* ===================================================================== *)
(** * std::string members used by the sources                             *)
(* ===================================================================== *)

Module StdString.

(** [s.find(c)]: position of the first [c], [None] for [npos]. *)
Fixpoint string_find (c : ascii) (s : string) : option nat :=
  match s with
  | EmptyString => None
  | String a s' => if Ascii.eqb a c then Some 0%nat else S <$> string_find c s'
  end.

(** [s.rfind(c)]: position of the last [c], [None] for [npos]. *)
Fixpoint string_rfind (c : ascii) (s : string) : option nat :=
  match s with
  | EmptyString => None
  | String a s' =>
      match string_rfind c s' with
      | Some i => Some (S i)
      | None => if Ascii.eqb a c then Some 0%nat else None
      end
  end.

(** [s.substr(pos)] for [pos <= s.size()]. *)
Fixpoint substr_from (pos : nat) (s : string) : string :=
  match pos, s with
  | O, _ => s
  | S n, String _ s' => substr_from n s'
  | S _, EmptyString => EmptyString
  end.

(** [s.substr(0, len)]. *)
Fixpoint substr_to (len : nat) (s : string) : string :=
  match len, s with
  | S n, String a s' => String a (substr_to n s')
  | _, _ => EmptyString
  end.

(** [c] occurs in [s]. *)
Fixpoint occurs (c : ascii) (s : string) : bool :=
  match s with
  | EmptyString => false
  | String a s' => Ascii.eqb a c || occurs c s'
  end.

End StdString.

(* ===================================================================== *)
(** * namespace sp::db  (source/db/Entry.cpp)                             *)
(* ===================================================================== *)

Module db.

(** Addresses.  An [Entry], an [EntryObject] and an [EntryArray] each live
    at an address of their own kind; two handles are the same node exactly
    when the addresses are equal. *)
Definition loc := positive.
Bind Scope positive_scope with loc.

(** Modelled from the spec: the scalar alternatives of the variant are
    declared in Entry.h, which is absent; the spec lists bool, integer and
    string among them, and no function below looks inside one. *)
Inductive scalar :=
| Boolean (b : bool)
| Integer (z : Z)
| String_ (s : string).

(** [Entry] is a [std::variant]; the alternatives are named by
    [Entry::type_tags].  [Reference] holds a [shared_ptr<Entry>], [Object] a
    [shared_ptr<EntryObject>], [Array] a [shared_ptr<EntryArray>]: each is
    the address of the pointee (a null or dangling pointer is an address
    that is not allocated in the store). *)
Inductive Entry :=
| Empty
| Reference (target : loc)
| Block (b : positive)
| Object (o : positive)
| Array (a : positive)
| Scalar (v : scalar).

(** [Entry::type_tags]; [tag_Scalar] stands for the tags of the scalar
    alternatives, which the functions below never name. *)
Inductive type_tags :=
| tag_Empty | tag_Reference | tag_Block | tag_Object | tag_Array | tag_Scalar.

#[global] Instance type_tags_eq_dec : EqDecision type_tags.
Proof. solve_decision. Defined.

(** [base_type::index()]. *)
Definition index (e : Entry) : type_tags :=
  match e with
  | Empty => tag_Empty
  | Reference _ => tag_Reference
  | Block _ => tag_Block
  | Object _ => tag_Object
  | Array _ => tag_Array
  | Scalar _ => tag_Scalar
  end.

(** Which class implements an [EntryObject]. *)
Inductive backend :=
| InMemory                     (* EntryObjectDefault *)
| Plugin (schema : string).    (* whatever Factory<EntryObject>::create(schema) built *)

(** [EntryObject], with the [std::map<std::string, Entry>] of
    [EntryObjectDefault]: every child [Entry] sits in a map node and is
    named by the address of that node. *)
Record EntryObject := mkObject {
  impl : backend;
  m_self_ : option loc;
  m_container_ : gmap string loc
}.

(** [EntryArrayDefault], with its [std::vector<Entry>]: the address of each
    element, in order, and [capacity()], the number of elements the buffer
    of the vector has room for.  The elements lie in that buffer: when the
    vector has to take more than its capacity it moves to a new buffer, and
    every element with it to a new address. *)
Record EntryArray := mkArray {
  a_self_ : option loc;
  a_container_ : list loc;
  a_capacity : nat
}.

(** What the C++ standard leaves to the implementation of
    [std::vector<Entry>]: [max_size()], which also depends on
    [sizeof(Entry)] (Entry.h is absent), and the capacity of the new buffer
    when a vector of [n] elements has to grow by [k]. *)
Record vector_impl := mk_vector_impl {
  max_size : Z;
  new_capacity : nat -> nat -> nat
}.

(** libstdc++ on a 64-bit target, for an [Entry] of [sizeof_Entry] bytes:
    [max_size()] is [PTRDIFF_MAX / sizeof(Entry)], and [_M_check_len] asks
    for [n + max(n, k)] elements, at most [max_size()]. *)
Definition libstdcxx (sizeof_Entry : Z) : vector_impl :=
  mk_vector_impl ((2 ^ 63 - 1) / sizeof_Entry)
    (fun n k => Z.to_nat (Z.min (Z.of_nat (n + Nat.max n k))
                                ((2 ^ 63 - 1) / sizeof_Entry))).

(** The process: the heap, and what [Factory<EntryObject>] and the logging
    macros of utility/, which are absent from the sources, answer.
    [creators] is the set of identifiers for which
    [Factory<EntryObject>::has_creator] is true; [RUNTIME_ERROR_throws]
    says whether the statement [RUNTIME_ERROR << ...] throws by itself. *)
Record Store := mkStore {
  entries : gmap loc Entry;
  objects : gmap positive EntryObject;
  arrays : gmap positive EntryArray;
  creators : gset string;
  RUNTIME_ERROR_throws : bool
}.

Definition set_entries (f : gmap loc Entry -> gmap loc Entry) (s : Store) : Store :=
  mkStore (f (entries s)) (objects s) (arrays s) (creators s) (RUNTIME_ERROR_throws s).
Definition set_objects (f : gmap positive EntryObject -> gmap positive EntryObject) (s : Store) : Store :=
  mkStore (entries s) (f (objects s)) (arrays s) (creators s) (RUNTIME_ERROR_throws s).
Definition set_arrays (f : gmap positive EntryArray -> gmap positive EntryArray) (s : Store) : Store :=
  mkStore (entries s) (objects s) (f (arrays s)) (creators s) (RUNTIME_ERROR_throws s).

Abbreviation St := (M Store).

(** ** Reading and writing the heap *)

(** [*p] for an [Entry* p]. *)
Definition deref (p : loc) : St Entry :=
  fun s => match entries s !! p with
           | Some v => Ret v s
           | None => Halt undefined_behaviour
           end.

(** [p->emplace<...>(v)]. *)
Definition emplace (p : loc) (v : Entry) : St unit :=
  modify (set_entries <[p := v]>).

(** A default-constructed [Entry] at a new address. *)
Definition new_Entry : St loc :=
  fun s => let p := fresh (dom (entries s)) in
           Ret p (set_entries <[p := Empty]> s).

Definition deref_object (o : positive) : St EntryObject :=
  fun s => match objects s !! o with
           | Some x => Ret x s
           | None => Halt undefined_behaviour
           end.

Definition deref_array (a : positive) : St EntryArray :=
  fun s => match arrays s !! a with
           | Some x => Ret x s
           | None => Halt undefined_behaviour
           end.

(** [*std::get<type_tags::Object>(e)] for the entry at [p]. *)
Definition get_Object (p : loc) : St positive :=
  v <- deref p ;;
  match v with
  | Object o => _ <- deref_object o ;; ret o
  | _ => throw bad_variant_access
  end.

(** [*std::get<type_tags::Array>(e)] for the entry at [p]. *)
Definition get_Array (p : loc) : St positive :=
  v <- deref p ;;
  match v with
  | Array a => _ <- deref_array a ;; ret a
  | _ => throw bad_variant_access
  end.

(** ** Entry *)

(** [Entry::fetch]: one hop, and only the address is formed. *)
Definition fetch (this : loc) : St loc :=
  v <- deref this ;;
  match v with
  | Reference target => ret target
  | _ => ret this
  end.

(** [Entry::update]. *)
Fixpoint update (fuel : nat) (this : loc) : St unit :=
  match fuel with
  | O => halt_with out_of_fuel
  | S fuel' =>
      v <- deref this ;;
      match v with
      | Reference target => update fuel' target
      | _ => ret tt
      end
  end.

(** [Entry::type]. *)
Definition Entry_type (this : loc) : St type_tags :=
  t <- fetch this ;;
  v <- deref t ;;
  ret (index v).

(** ** The end of an entry *)

#[global] Instance scalar_eq_dec : EqDecision scalar.
Proof. solve_decision. Defined.

#[global] Instance Entry_eq_dec : EqDecision Entry.
Proof. solve_decision. Defined.

(** Some entry of the store holds the pointer [v]: a [shared_ptr] that was
    just let go of was not the last one to its pointee.  (The functions of
    this file keep a [shared_ptr] in an [Entry] and nowhere else.) *)
Definition still_held (s : Store) (v : Entry) : Prop :=
  map_Exists (fun _ w => w = v) (entries s).

#[global] Instance still_held_dec s v : Decision (still_held s v).
Proof. unfold still_held. apply _. Defined.

(** The entries that go when the pointee of [v] goes: the target of a
    Reference, the children of an object, the elements of an array. *)
Definition owned (s : Store) (v : Entry) : list loc :=
  match v with
  | Reference target => [target]
  | Object o =>
      match objects s !! o with
      | Some x => snd <$> map_to_list (m_container_ x)
      | None => []
      end
  | Array a =>
      match arrays s !! a with
      | Some x => a_container_ x
      | None => []
      end
  | Empty | Block _ | Scalar _ => []
  end.

(** [~Entry()] for the entry at [c], given what letting go of a value does:
    the entry is gone and the value it held is let go of. *)
Definition destroy_with (release : Entry -> St unit) (c : loc) : St unit :=
  fun s => match entries s !! c with
           | Some v => release v (set_entries (delete c) s)
           | None => Ret tt s
           end.

Fixpoint destroy_all_with (release : Entry -> St unit) (cs : list loc) : St unit :=
  match cs with
  | [] => ret tt
  | c :: cs' => destroy_with release c ;;; destroy_all_with release cs'
  end.

(** An entry lets go of the value [v] it held: the destructor of the
    alternative, which for a Reference, an Object and an Array is the
    destructor of a [shared_ptr].  While another entry holds the same
    pointer nothing more happens.  The last one destroys the pointee: the
    target of a Reference; an in-memory object, whose map destroys every
    child; an array, whose vector destroys every element; the destructor of
    an object of another class is that class's.  A pointer to nothing is
    null.  [fuel] bounds the depth of what is destroyed. *)
Fixpoint release (fuel : nat) (v : Entry) : St unit :=
  match fuel with
  | O => halt_with out_of_fuel
  | S fuel' =>
      s <- get ;;
      if decide (still_held s v) then ret tt
      else
        match v with
        | Reference target => destroy_with (release fuel') target
        | Object o =>
            match objects s !! o with
            | None => ret tt
            | Some x =>
                match impl x with
                | InMemory =>
                    modify (set_objects (delete o)) ;;;
                    destroy_all_with (release fuel') (owned s v)
                | Plugin _ => halt_with plugin_call
                end
            end
        | Array a =>
            match arrays s !! a with
            | None => ret tt
            | Some x =>
                modify (set_arrays (delete a)) ;;;
                destroy_all_with (release fuel') (owned s v)
            end
        | Empty | Block _ | Scalar _ => ret tt
        end
  end.


(** ** EntryObject::create and EntryArray::create *)

(** The scheme part of a request, as [EntryObject::create] cuts it out. *)
Definition schema_of (request : string) : string :=
  match StdString.string_find ":" request with
  | None =>
      match StdString.string_rfind "." request with
      | Some pos => StdString.substr_from pos request
      | None => request
      end
  | Some pos => StdString.substr_to pos request
  end.

Definition new_object (x : EntryObject) : St positive :=
  fun s => let o := fresh (dom (objects s)) in
           Ret o (set_objects <[o := x]> s).

(** [std::make_shared<EntryObjectDefault>(self)]. *)
Definition new_EntryObjectDefault (self : option loc) : St positive :=
  new_object (mkObject InMemory self ∅).

(** [Factory<EntryObject>::create(schema).release()]: the registered
    constructor runs; what it builds is only known by its identifier. *)
Definition Factory_create (schema : string) : St positive :=
  new_object (mkObject (Plugin schema) None ∅).

(** [obj->self(self)]. *)
Definition set_self (o : positive) (self : option loc) : St unit :=
  x <- deref_object o ;;
  modify (set_objects <[o := mkObject (impl x) self (m_container_ x)]>).

(** [EntryObject::create(self, request)]; [nullptr] is [None]. *)
Definition EntryObject_create (self : option loc) (request : string) : St positive :=
  if String.eqb request "" then new_EntryObjectDefault self
  else
    let schema := schema_of request in
    (if String.eqb schema "http" || String.eqb schema "https"
     then halt_with not_implemented else ret tt) ;;;
    s <- get ;;
    obj <- (if String.eqb schema "" then
              o <- new_EntryObjectDefault self ;; ret (Some o)
            else if bool_decide (schema ∈ creators s) then
              o <- Factory_create schema ;; ret (Some o)
            else if RUNTIME_ERROR_throws s then
              throw (runtime_error ("Can not parse schema " +:+ schema))
            else ret None) ;;
    match obj with
    | None => throw (runtime_error ("Can not create Entry for schema: " +:+ schema))
    | Some o => set_self o self ;;; ret o
    end.

(** [EntryArray::create(self)]; a default-constructed vector has no
    buffer. *)
Definition EntryArray_create (self : option loc) : St positive :=
  fun s => let a := fresh (dom (arrays s)) in
           Ret a (set_arrays <[a := mkArray self [] 0]> s).

(** ** Entry::as_object and Entry::as_array *)

(** Modelled from the spec: the default argument of [request] in the
    declaration of [EntryObject::create] (Entry.h, absent), which the call
    [EntryObject::create(this)] relies on.  The spec has an Empty entry
    promoted to an object of the default in-memory implementation, which
    is what the empty request selects. *)
Definition default_request : string := "".

(** The non-const [Entry::as_object].  A [Reference] makes the call recurse
    into the target; [fuel] bounds that recursion. *)
Fixpoint as_object (fuel : nat) (this : loc) : St positive :=
  match fuel with
  | O => halt_with out_of_fuel
  | S fuel' =>
      v <- deref this ;;
      match v with
      | Empty =>
          o <- EntryObject_create (Some this) default_request ;;
          emplace this (Object o)
      | Object _ => ret tt
      | Reference target => _ <- as_object fuel' target ;; ret tt
      | _ => throw (runtime_error "illegal type")
      end ;;;
      t <- fetch this ;;
      get_Object t
  end.

(** The const [Entry::as_object]. *)
Definition as_object_const (this : loc) : St positive :=
  ty <- Entry_type this ;;
  if decide (ty = tag_Object) then t <- fetch this ;; get_Object t
  else throw (runtime_error "illegal type").

(** The non-const [Entry::as_array]. *)
Fixpoint as_array (fuel : nat) (this : loc) : St positive :=
  match fuel with
  | O => halt_with out_of_fuel
  | S fuel' =>
      v <- deref this ;;
      match v with
      | Empty => a <- EntryArray_create (Some this) ;; emplace this (Array a)
      | Array _ => ret tt
      | Reference target => _ <- as_array fuel' target ;; update fuel' this
      | _ => throw (runtime_error "illegal type")
      end ;;;
      t <- fetch this ;;
      get_Array t
  end.

(** The const [Entry::as_array]: it tests [index()], not [type()]. *)
Definition as_array_const (this : loc) : St positive :=
  v <- deref this ;;
  if decide (index v = tag_Array) then t <- fetch this ;; get_Array t
  else throw (runtime_error "illegal type").

(** ** EntryObjectDefault *)

(** [m_container_.try_emplace(name).first->second]. *)
Definition EntryObjectDefault_insert (this : positive) (name : string) : St loc :=
  x <- deref_object this ;;
  match m_container_ x !! name with
  | Some c => ret c
  | None =>
      c <- new_Entry ;;
      modify (set_objects
                <[this := mkObject (impl x) (m_self_ x) (<[name := c]> (m_container_ x))]>) ;;;
      ret c
  end.

(** [m_container_.at(path)]. *)
Definition EntryObjectDefault_at (this : positive) (path : string) : St loc :=
  x <- deref_object this ;;
  match m_container_ x !! path with
  | Some c => ret c
  | None => throw out_of_range
  end.

Definition EntryObjectDefault_size (this : positive) : St nat :=
  x <- deref_object this ;; ret (size (m_container_ x)).

(** The virtual [EntryObject::insert(const std::string&)]. *)
Definition insert_key (this : positive) (name : string) : St loc :=
  x <- deref_object this ;;
  match impl x with
  | InMemory => EntryObjectDefault_insert this name
  | Plugin _ => halt_with plugin_call
  end.

(** The virtual [EntryObject::at(const std::string&) const]. *)
Definition at_key (this : positive) (name : string) : St loc :=
  x <- deref_object this ;;
  match impl x with
  | InMemory => EntryObjectDefault_at this name
  | Plugin _ => halt_with plugin_call
  end.

(** ** EntryArrayDefault *)

(** The conversion of an [int] argument to [std::size_t] (64 bits). *)
Definition size_t_of_int (idx : Z) : Z := (idx mod 2 ^ 64)%Z.

(** A [std::vector] never holds more than [PTRDIFF_MAX] elements. *)
Definition vector_max_size : Z := (2 ^ 63 - 1)%Z.

(** [m_container_.at(idx)] with [int idx]: range-checked. *)
Definition EntryArrayDefault_at (this : positive) (idx : Z) : St loc :=
  x <- deref_array this ;;
  match a_container_ x !! Z.to_nat (size_t_of_int idx) with
  | Some c => ret c
  | None => throw out_of_range
  end.

Definition EntryArrayDefault_size (this : positive) : St nat :=
  x <- deref_array this ;; ret (length (a_container_ x)).

(** [k] default-constructed entries are appended to the vector of the
    array [x], which is at [this].  With room for them in the buffer they
    are constructed behind the last element, and every element stays where
    it is.  Without, [std::length_error] is thrown if the vector cannot
    hold that many; else a new buffer is taken, of the capacity the
    implementation chooses and at least of the new size, the new entries
    are constructed in it, and every element is moved into it and destroyed
    where it was: each is at a new address, with the value it had.  (An
    entry is moved as its variant is, pointers and all: Entry.cpp defines
    no constructor that does otherwise, and Entry.h is absent.  Nothing
    tells an object or array held by a moved entry that its [m_self_] has
    moved.) *)
Definition append_default (V : vector_impl) (this : positive) (x : EntryArray) (k : nat)
    : St unit :=
  fun s =>
    let cs := a_container_ x in
    let n := length cs in
    if decide (n + k <= a_capacity x)%nat then
      let new := fresh_list k (dom (entries s)) in
      Ret tt (set_arrays <[this := mkArray (a_self_ x) (cs ++ new) (a_capacity x)]>
                (set_entries (fun m => list_to_map (zip new (replicate k Empty)) ∪ m) s))
    else if decide (max_size V < Z.of_nat (n + k))%Z then Throw length_error s
    else
      match mapM (fun c => entries s !! c) cs with
      | None => Halt undefined_behaviour
      | Some vs =>
          let buf := fresh_list (n + k) (dom (entries s)) in
          Ret tt (set_arrays
                    <[this := mkArray (a_self_ x) buf
                                (Nat.max (n + k) (new_capacity V n k))]>
                    (set_entries
                       (fun m => list_to_map (zip buf (vs ++ replicate k Empty))
                                   ∪ foldr delete m cs) s))
      end.


(** [m_container_.pop_back()]: [std::vector::pop_back] has a meaning only
    on a non-empty vector.  The removed [Entry] is destroyed. *)
Definition EntryArrayDefault_pop_back (this : positive) : St unit :=
  x <- deref_array this ;;
  match last (a_container_ x) with
  | None => halt_with undefined_behaviour
  | Some c =>
      modify (set_entries (delete c)) ;;;
      modify (set_arrays
                <[this := mkArray (a_self_ x) (removelast (a_container_ x))
                             (a_capacity x)]>)
  end.

(** [m_container_.resize(num)], for a [std::size_t num]: the elements from
    position [num] on are destroyed, the buffer stays; or default-constructed
    entries are appended up to [num]. *)
Definition EntryArrayDefault_resize (V : vector_impl) (fuel : nat) (this : positive)
    (num : Z) : St unit :=
  x <- deref_array this ;;
  if decide (num <= Z.of_nat (length (a_container_ x)))%Z then
    destroy_all_with (release fuel) (drop (Z.to_nat num) (a_container_ x)) ;;;
    modify (set_arrays
              <[this := mkArray (a_self_ x) (take (Z.to_nat num) (a_container_ x))
                          (a_capacity x)]>)
  else
    append_default V this x (Z.to_nat num - length (a_container_ x)).

(** ** XPath and the path walkers *)

(** Modelled from the spec: XPath.h is absent; a path is a sequence of
    segments, each a Key(string) or an Index(integer). *)
Inductive segment :=
| Key (k : string)
| Index (i : Z).

Definition XPath := list segment.

(** The loop of [EntryObject::insert(const XPath&)], from the entry [p]. *)
Fixpoint insert_from (fuel : nat) (p : loc) (path : XPath) : St loc :=
  match path with
  | [] => ret p
  | Key k :: rest =>
      o <- as_object fuel p ;;
      c <- insert_key o k ;;
      insert_from fuel c rest
  | Index i :: rest =>
      a <- as_array fuel p ;;
      c <- EntryArrayDefault_at a i ;;
      insert_from fuel c rest
  end.

(** The loop of [EntryObject::at(const XPath&) const]. *)
Fixpoint at_from (p : loc) (path : XPath) : St loc :=
  match path with
  | [] => ret p
  | Key k :: rest =>
      o <- as_object_const p ;;
      c <- at_key o k ;;
      at_from c rest
  | Index i :: rest =>
      a <- as_array_const p ;;
      c <- EntryArrayDefault_at a i ;;
      at_from c rest
  end.

(** [EntryObject::insert(const XPath&)]: the walk starts at [m_self_]. *)
Definition EntryObject_insert (fuel : nat) (this : positive) (path : XPath) : St loc :=
  x <- deref_object this ;;
  match m_self_ x with
  | None => halt_with undefined_behaviour
  | Some p => insert_from fuel p path
  end.

(** [EntryObject::at(const XPath&) const]. *)
Definition EntryObject_at (this : positive) (path : XPath) : St loc :=
  x <- deref_object this ;;
  match m_self_ x with
  | None => halt_with undefined_behaviour
  | Some p => at_from p path
  end.


(** ** The other members of the containers *)


(** [EntryObjectDefault::clear]: every child is destroyed. *)
Definition EntryObjectDefault_clear (fuel : nat) (this : positive) : St unit :=
  x <- deref_object this ;;
  destroy_all_with (release fuel) (snd <$> map_to_list (m_container_ x)) ;;;
  modify (set_objects <[this := mkObject (impl x) (m_self_ x) ∅]>).

(** [EntryArrayDefault::clear]: every element is destroyed, the buffer
    stays. *)
Definition EntryArrayDefault_clear (fuel : nat) (this : positive) : St unit :=
  x <- deref_array this ;;
  destroy_all_with (release fuel) (a_container_ x) ;;;
  modify (set_arrays <[this := mkArray (a_self_ x) [] (a_capacity x)]>).

(** ** Entry::as_block *)

(** The [DataBlock]s that are alive: those some entry holds.  (DataBlock.h
    is absent; a block is known by its address only.) *)
Definition blocks_of (s : Store) : gset positive :=
  map_fold (fun _ v acc => match v with Block b => {[b]} ∪ acc | _ => acc end)
           ∅ (entries s).

(** [*std::get<type_tags::Block>(e)] for the entry at [p]. *)
Definition get_Block (p : loc) : St positive :=
  v <- deref p ;;
  match v with
  | Block b => ret b
  | _ => throw bad_variant_access
  end.

(** The non-const [Entry::as_block]; [std::make_shared<DataBlock>()] gives
    a block at a new address. *)
Fixpoint as_block (fuel : nat) (this : loc) : St positive :=
  match fuel with
  | O => halt_with out_of_fuel
  | S fuel' =>
      v <- deref this ;;
      match v with
      | Empty => s <- get ;; emplace this (Block (fresh (blocks_of s)))
      | Block _ => ret tt
      | Reference target => _ <- as_block fuel' target ;; ret tt
      | _ => throw (runtime_error "illegal type")
      end ;;;
      t <- fetch this ;;
      get_Block t
  end.

(** The const [Entry::as_block]. *)
Definition as_block_const (this : loc) : St positive :=
  ty <- Entry_type this ;;
  if decide (ty = tag_Block) then t <- fetch this ;; get_Block t
  else throw (runtime_error "illegal type").



(** A set of entries, each a Reference to an entry of the set: the
    references among them go round in cycles. *)
Definition reference_cycle (s : Store) (C : gset loc) : Prop :=
  forall p, p ∈ C -> exists t, t ∈ C /\ entries s !! p = Some (Reference t).

(** ** What the end of an entry takes with it *)

(** A value without a pointer to an entry, an object or an array. *)
Definition owns_nothing (v : Entry) : Prop :=
  match v with
  | Empty | Block _ | Scalar _ => True
  | Reference _ | Object _ | Array _ => False
  end.


(** Every object of the store is of the in-memory class. *)
Definition in_memory (s : Store) : Prop :=
  map_Forall (fun _ x => impl x = InMemory) (objects s).

#[global] Instance backend_eq_dec : EqDecision backend.
Proof. solve_decision. Defined.

#[global] Instance in_memory_dec s : Decision (in_memory s).
Proof. unfold in_memory. apply _. Defined.

(** No entry is below itself: [rank] goes down from an entry to the
    entries that go with what it holds. *)
Definition ranked (s : Store) (rank : loc -> nat) : Prop :=
  map_Forall (fun q v => Forall (fun c => (rank c < rank q)%nat) (owned s v)) (entries s).

#[global] Instance ranked_dec s rank : Decision (ranked s rank).
Proof. unfold ranked. apply _. Defined.


(** [s'] is what is left of [s]. *)
Definition shrinks (s s' : Store) : Prop :=
  entries s' ⊆ entries s /\ objects s' ⊆ objects s /\ arrays s' ⊆ arrays s /\
  creators s' = creators s /\ RUNTIME_ERROR_throws s' = RUNTIME_ERROR_throws s.



(** ** The elements of an array *)

(** What the entries at [cs] hold. *)
Definition values (s : Store) (cs : list loc) : list (option Entry) :=
  (fun c => entries s !! c) <$> cs.

(** The elements of the array [x] are entries of the store, each a
    different one. *)
Definition elements_allocated (s : Store) (x : EntryArray) : Prop :=
  NoDup (a_container_ x) /\
  Forall (fun c => is_Some (entries s !! c)) (a_container_ x).

#[global] Instance elements_allocated_dec s x : Decision (elements_allocated s x).
Proof. unfold elements_allocated. apply _. Defined.

(** ** How a walk may change the store *)

(** [extends s s']: every entry that holds something in [s] holds the same
    in [s']; every object of [s] is in [s'] with the same class and
    [m_self_] and with at least the same children under the same keys;
    every array of [s] is in [s'] with the same elements; an array of [s']
    that is not in [s] has no element; and [s'] has no Reference that [s]
    did not have. *)
Record extends (s s' : Store) : Prop := mk_extends {
  ext_entries : forall p v,
    entries s !! p = Some v -> v <> Empty -> entries s' !! p = Some v;
  ext_objects : forall o x,
    objects s !! o = Some x ->
    exists x', objects s' !! o = Some x' /\ impl x' = impl x /\
               m_self_ x' = m_self_ x /\ m_container_ x ⊆ m_container_ x';
  ext_arrays : forall a x, arrays s !! a = Some x -> arrays s' !! a = Some x;
  ext_new_arrays : forall a x',
    arrays s' !! a = Some x' -> arrays s !! a = None -> a_container_ x' = [];
  ext_references : forall p t,
    entries s' !! p = Some (Reference t) -> entries s !! p = Some (Reference t)
}.

(** [arrays_kept s s']: every array of [s] has the same elements in [s'],
    and an array that is only in [s'] has none. *)
Definition arrays_kept (s s' : Store) : Prop :=
  (forall a x, arrays s !! a = Some x -> arrays s' !! a = Some x) /\
  (forall a x', arrays s' !! a = Some x' -> arrays s !! a = None -> a_container_ x' = []).


(** A property of the store in which a call ends, if it ends in one. *)
Definition ensures {A} (R : Store -> Store -> Prop) (m : St A) (s : Store) : Prop :=
  match m s with
  | Ret _ s' | Throw _ s' => R s s'
  | Halt _ => True
  end.

(** The store after an Empty entry at [this] was promoted to an Object. *)
Definition promoted_to_object (this : loc) (s : Store) : Store :=
  let o := fresh (dom (objects s)) in
  set_entries <[this := Object o]>
    (set_objects <[o := mkObject InMemory (Some this) ∅]> s).

(** What [EntryObjectDefault::insert] does to the store when the key is
    new: a default-constructed entry, at a new address, goes under it. *)
Definition with_new_child (o : positive) (x : EntryObject) (name : string) (s : Store) : Store :=
  let c := fresh (dom (entries s)) in
  set_objects <[o := mkObject (impl x) (m_self_ x) (<[name := c]> (m_container_ x))]>
    (set_entries <[c := Empty]> s).

(** A store without Reference entries: a plain tree. *)
Definition no_references (s : Store) : Prop :=
  forall q t, entries s !! q <> Some (Reference t).

(** How the message of the failure for an unknown scheme starts: the text
    of [RUNTIME_ERROR << ...] if that statement throws, else the text of
    the [throw] after it. *)
Definition unknown_backend_message (s : Store) : string :=
  if RUNTIME_ERROR_throws s then "Can not parse schema "
  else "Can not create Entry for schema: ".

(** ** Example stores *)

Section example_stores.
Local Open Scope positive_scope.

Definition empty_store : Store := mkStore ∅ ∅ ∅ ∅ false.

(** A at address 1 is Reference(B), B at address 2 is Reference(A). *)
Definition cyclic_store : Store :=
  set_entries (fun _ => <[1 := Reference 2]> (<[2 := Reference 1]> ∅))
    empty_store.

(** A at 1 is Reference(B), B at 2 is Reference(C), C at 3 is Empty. *)
Definition chain_store : Store :=
  set_entries (fun _ => <[1 := Reference 2]>
                          (<[2 := Reference 3]> (<[3 := Empty]> ∅)))
    empty_store.

(** The root at 1 is an Object {"a": Reference(X)}; X at 3 is an Array with
    one Empty element, at 4. *)
Definition ref_array_store : Store :=
  mkStore
    (<[1 := Object 1]> (<[2 := Reference 3]>
       (<[3 := Array 1]> (<[4 := Empty]> ∅))))
    (<[1 := mkObject InMemory (Some 1) (<["a" := 2]> ∅)]> ∅)
    (<[1 := mkArray (Some 3) [4] 1]> ∅)
    ∅ false.

(** The entry at 1 is an Array with one Empty element, at 2; its vector
    is full. *)
Definition array_store : Store :=
  mkStore (<[1 := Array 1]> (<[2 := Empty]> ∅)) ∅
    (<[1 := mkArray (Some 1) [2] 1]> ∅) ∅ false.

(** A process in which one backend is registered, under the name "h5". *)
Definition h5_store : Store := mkStore ∅ ∅ ∅ {["h5"%string]} false.

(** A process in which one backend is registered, under the name ".h5". *)
Definition dot_h5_store : Store := mkStore ∅ ∅ ∅ {[".h5"%string]} false.

(** The entry at 1 is an Array without elements. *)
Definition empty_array_store : Store :=
  mkStore (<[1 := Array 1]> ∅) ∅ (<[1 := mkArray (Some 1) [] 0]> ∅) ∅ false.

(** The entry at 1 is an Object {"a": Scalar 7}; the child is at 2. *)
Definition object_store : Store :=
  mkStore (<[1 := Object 1]> (<[2 := Scalar (Integer 7)]> ∅))
    (<[1 := mkObject InMemory (Some 1) (<["a"%string := 2]> ∅)]> ∅) ∅ ∅ false.

(** The entry at 1 is Reference(X); X at 2 is an Object without children. *)
Definition ref_object_store : Store :=
  mkStore (<[1 := Reference 2]> (<[2 := Object 1]> ∅))
    (<[1 := mkObject InMemory (Some 2) ∅]> ∅) ∅ ∅ false.


(** The entry at 1 is an Array with the elements at 2 and 3; its vector
    is full. *)
Definition two_element_store : Store :=
  mkStore (<[1 := Array 1]> (<[2 := Scalar (Integer 7)]> (<[3 := Empty]> ∅))) ∅
    (<[1 := mkArray (Some 1) [2; 3] 2]> ∅) ∅ false.

End example_stores.

End db.

(* ===================================================================== *)
(** * namespace sp  (source/Entry.cpp): the older in-memory interface     *)
(* ===================================================================== *)

Module sp.

(** Modelled from the spec: [Entry::single_t], [Entry::tensor_t] and
    [Entry::block_t] are declared in Entry.h, which is absent.  A single
    is one scalar; a tensor and a block are a shape with raw data.  No
    function below looks inside one. *)
Inductive single_t :=
| s_bool (b : bool)
| s_int (z : Z)
| s_string (s : string).

Inductive tensor_t := tensor (shape : list nat) (data : list Z).

Inductive block_t := block (shape : list nat) (bytes : list Z).

(** [EntryInterfaceInMemory::m_data_]: a [std::variant] over, in this
    order, [nullptr_t], [single_t], [tensor_t], [block_t],
    [std::vector<Entry>] and [std::map<std::string, Entry>].  An [Entry]
    owns its implementation alone, so an entry is the value of its
    [m_data_].  (The [m_self_] and [m_parent_] back pointers, which only
    [parent()] and [depth()] read, are left out.) *)
Inductive Entry :=
| m_null
| m_single (v : single_t)
| m_tensor (v : tensor_t)
| m_block (v : block_t)
| m_array (l : list Entry)
| m_object (m : gmap string Entry).

(** [Entry::Type], numbered as [m_data_.index()]. *)
Inductive Type_ := Null | Single | Tensor | Block | Array | Object.

Definition Type_index (t : Type_) : nat :=
  match t with
  | Null => 0 | Single => 1 | Tensor => 2 | Block => 3 | Array => 4 | Object => 5
  end.

(** [type() < Entry::Type::Array]: the four leaf types. *)
Definition is_leaf_type (t : Type_) : bool :=
  match t with
  | Null | Single | Tensor | Block => true
  | Array | Object => false
  end.

(** [EntryInterfaceInMemory::type]. *)
Definition type (this : Entry) : Type_ :=
  match this with
  | m_null => Null
  | m_single _ => Single
  | m_tensor _ => Tensor
  | m_block _ => Block
  | m_array _ => Array
  | m_object _ => Object
  end.

(** [Entry::iterator] and [Entry::const_iterator] as this file uses them:
    default-constructed (null), or built from the address of a child of
    the entry, which is named by its key or its position. *)
Inductive iterator :=
| null_iterator
| to_key (k : string)
| to_index (i : nat).

(** [!p].  The iterator class is absent; [Entry::at(key)] in this file
    reads [if (!p) throw std::out_of_range(key)] on the result of [find],
    and [is_root] is [!parent()]: [!p] holds exactly for the null iterator. *)
Definition iterator_not (p : iterator) : bool :=
  match p with
  | null_iterator => true
  | _ => false
  end.

(** [*p], for an iterator into the children of [this]. *)
Definition child (this : Entry) (p : iterator) : option Entry :=
  match p, this with
  | to_key k, m_object m => m !! k
  | to_index i, m_array l => l !! i
  | _, _ => None
  end.

Abbreviation St := (M Entry).

(** ** Leaf setters and getters *)

Definition set_single (v : single_t) : St unit :=
  fun this =>
    if decide (Type_index (type this) < Type_index Array)%nat
    then Ret tt (m_single v)
    else Throw (runtime_error "Set value failed!") this.

Definition get_single : St single_t :=
  fun this =>
    match this with
    | m_single v => Ret v this
    | _ => Throw (runtime_error "This is not block!") this
    end.

Definition set_tensor (v : tensor_t) : St unit :=
  fun this =>
    if decide (Type_index (type this) < Type_index Array)%nat
    then Ret tt (m_tensor v)
    else Throw (runtime_error "Set value failed!") this.

Definition get_tensor : St tensor_t :=
  fun this =>
    match this with
    | m_tensor v => Ret v this
    | _ => Throw (runtime_error "This is not block!") this
    end.

Definition set_block (v : block_t) : St unit :=
  fun this =>
    if decide (Type_index (type this) < Type_index Array)%nat
    then Ret tt (m_block v)
    else Throw (runtime_error "Set value failed!") this.

Definition get_block : St block_t :=
  fun this =>
    match this with
    | m_block v => Ret v this
    | _ => Throw (runtime_error "This is not block!") this
    end.

(** ** As vector *)

(** [EntryInterfaceInMemory::at(int idx)]: [&m[idx]], unchecked;
    [std::bad_variant_access] is caught and gives the null iterator. *)
Definition at_ (idx : Z) : St iterator :=
  fun this =>
    match this with
    | m_array m =>
        let n := Z.to_nat (idx mod 2 ^ 64)%Z in
        if decide (n < length m)%nat then Ret (to_index n) this
        else Halt undefined_behaviour
    | _ => Ret null_iterator this
    end.

(** [EntryInterfaceInMemory::push_back()]. *)
Definition push_back : St iterator :=
  fun this =>
    let this1 := match this with m_null => m_array [] | _ => this end in
    match this1 with
    | m_array m => Ret (to_index (length m)) (m_array (m ++ [m_null]))
    | _ => Ret null_iterator this1
    end.

(** [Entry::operator[](int idx)]; the result is the entry a non-null
    iterator points at. *)
Definition subscript (idx : Z) : St iterator :=
  if decide (idx < 0)%Z then
    p <- push_back ;;
    (if iterator_not p then halt_with undefined_behaviour else ret p)
  else
    p <- at_ idx ;;
    (if iterator_not p then throw out_of_range else ret p).

(** ** As object *)

(** [EntryInterfaceInMemory::find(const std::string&)], const or not. *)
Definition find (key : string) : St iterator :=
  fun this =>
    match this with
    | m_object m =>
        match m !! key with
        | Some _ => Ret (to_key key) this
        | None => Ret null_iterator this
        end
    | _ => Ret null_iterator this
    end.

(** [EntryInterfaceInMemory::insert(const std::string&)]:
    [m.emplace(key, Entry(m_self_))] keeps an element that is there. *)
Definition insert (key : string) : St iterator :=
  fun this =>
    let this1 := match this with m_null => m_object ∅ | _ => this end in
    match this1 with
    | m_object m =>
        match m !! key with
        | Some _ => Ret (to_key key) this1
        | None => Ret (to_key key) (m_object (<[key := m_null]> m))
        end
    | _ => Ret null_iterator this1
    end.

(** [EntryInterfaceInMemory::erase(const std::string&)]. *)
Definition erase (key : string) : St Entry :=
  fun this =>
    match this with
    | m_object m =>
        match m !! key with
        | Some c => Ret c (m_object (delete key m))
        | None => Ret m_null this
        end
    | _ => Ret m_null this
    end.

(** [Entry::has_a]. *)
Definition has_a (key : string) : St bool :=
  p <- find key ;; ret (iterator_not p).

(** [EntryInterfaceInMemory::has_attribute]. *)
Definition has_attribute (name : string) : St bool :=
  p <- find ("@" +:+ name) ;; ret (iterator_not p).

(** [Entry::at(const std::string&)]. *)
Definition at_by_key (key : string) : St iterator :=
  p <- find key ;;
  if iterator_not p then throw out_of_range else ret p.

(** ** Through an iterator *)

(** [p->f(...)] for an iterator [p] into the children of [this]: the
    member function runs on the child, which keeps what it did.  A null
    iterator, or one that points at no child, has nothing to run on. *)
Definition at_child {A} (p : iterator) (f : St A) : St A :=
  fun this =>
    match p, this with
    | to_key k, m_object m =>
        match m !! k with
        | Some c =>
            match f c with
            | Ret a c' => Ret a (m_object (<[k := c']> m))
            | Throw e c' => Throw e (m_object (<[k := c']> m))
            | Halt h => Halt h
            end
        | None => Halt undefined_behaviour
        end
    | to_index i, m_array l =>
        match l !! i with
        | Some c =>
            match f c with
            | Ret a c' => Ret a (m_array (<[i := c']> l))
            | Throw e c' => Throw e (m_array (<[i := c']> l))
            | Halt h => Halt h
            end
        | None => Halt undefined_behaviour
        end
    | _, _ => Halt undefined_behaviour
    end.

(** [tmp.swap] with this entry, for a temporary [tmp]: the entry becomes
    the value of the temporary. *)
Definition assign (tmp : Entry) : St unit := fun _ => Ret tt tmp.

(** A [const Entry&] handed to a member function of an entry: it refers
    to an entry that is no part of the receiver, or to an entry of the
    receiver's own tree, named by the iterators that lead to it from the
    receiver (none for the receiver itself). *)
Inductive cref :=
| elsewhere (v : Entry)
| within (path : list iterator).

(** The entry that [path] leads to from [this]. *)
Fixpoint descend (this : Entry) (path : list iterator) : option Entry :=
  match path with
  | [] => Some this
  | p :: rest =>
      match child this p with
      | Some c => descend c rest
      | None => None
      end
  end.

(** [Entry(other)]: the copy constructor reads the entry [other] refers
    to as it is at this point, children and all. *)
Definition copy_of (other : cref) : St Entry :=
  fun this =>
    match other with
    | elsewhere v => Ret v this
    | within path =>
        match descend this path with
        | Some v => Ret v this
        | None => Halt undefined_behaviour
        end
    end.

(** [Entry::insert(const std::string& key, const Entry& other)]:
    [auto p = insert(key); Entry(other).swap( *p); return p;].  The copy is
    made after [insert(key)], which leaves every entry of a [std::map]
    where it is. *)
Definition insert_value (key : string) (other : cref) : St iterator :=
  p <- insert key ;; tmp <- copy_of other ;; at_child p (assign tmp) ;;; ret p.

(** ** Attributes *)

(** [EntryInterfaceInMemory::get_attribute_raw]. *)
Definition get_attribute_raw (name : string) : St single_t :=
  p <- find ("@" +:+ name) ;;
  if iterator_not p then throw out_of_range else at_child p get_single.

(** [EntryInterfaceInMemory::set_attribute_raw]:
    [insert("@" + name)->set_single(value)]. *)
Definition set_attribute_raw (name : string) (value : single_t) : St unit :=
  p <- insert ("@" +:+ name) ;; at_child p (set_single value).

(** [EntryInterfaceInMemory::remove_attribute]. *)
Definition remove_attribute (name : string) : St unit :=
  _ <- erase ("@" +:+ name) ;; ret tt.

(** [item.first[0] == '@']. *)
Definition is_attribute_key (k : string) : bool :=
  match k with
  | String c _ => Ascii.eqb c "@"
  | EmptyString => false
  end.

(** [item.first.substr(1, std::string::npos)]. *)
Definition attribute_name (k : string) : string :=
  match k with
  | String _ rest => rest
  | EmptyString => EmptyString
  end.

(** One turn of the loop of [attributes()]:
    [res.emplace(item.first.substr(1), item.second.get_single())] for a
    key that starts with '@'. *)
Definition attributes_step (k : string) (c : Entry)
    (acc : outcome Entry (gmap string single_t)) : outcome Entry (gmap string single_t) :=
  match acc with
  | Ret res this =>
      if is_attribute_key k then
        match get_single c with
        | Ret v _ =>
            Ret (match res !! attribute_name k with
                 | Some _ => res
                 | None => <[attribute_name k := v]> res
                 end) this
        | Throw e _ => Throw e this
        | Halt h => Halt h
        end
      else Ret res this
  | _ => acc
  end.

(** [EntryInterfaceInMemory::attributes]: the loop runs over the items of
    the map. *)
Definition attributes : St (gmap string single_t) :=
  fun this =>
    match this with
    | m_object m => map_fold attributes_step (Ret ∅ this) m
    | _ => Ret ∅ this
    end.

(** Every child under a key that starts with '@' is a Single. *)
Definition attributes_are_single (m : gmap string Entry) : Prop :=
  forall k c, m !! k = Some c -> is_attribute_key k = true -> type c = Single.

End sp.

Module db_facts.
Import db.

(** ** Running the primitives *)

Lemma deref_Some s p v : entries s !! p = Some v -> deref p s = Ret v s.
Proof. intros H. unfold deref. by rewrite H. Qed.

Lemma deref_None s p : entries s !! p = None -> deref p s = Halt undefined_behaviour.
Proof. intros H. unfold deref. by rewrite H. Qed.

Lemma deref_object_Some s o x : objects s !! o = Some x -> deref_object o s = Ret x s.
Proof. intros H. unfold deref_object. by rewrite H. Qed.

Lemma deref_array_Some s a x : arrays s !! a = Some x -> deref_array a s = Ret x s.
Proof. intros H. unfold deref_array. by rewrite H. Qed.

Lemma bind_Ret {A B} (m : St A) (k : A -> St B) s a s' :
  m s = Ret a s' -> bind m k s = k a s'.
Proof. intros H. unfold bind. by rewrite H. Qed.

Lemma bind_Throw {A B} (m : St A) (k : A -> St B) s e s' :
  m s = Throw e s' -> bind m k s = Throw e s'.
Proof. intros H. unfold bind. by rewrite H. Qed.

Lemma bind_Halt {A B} (m : St A) (k : A -> St B) s h :
  m s = Halt h -> bind m k s = Halt h.
Proof. intros H. unfold bind. by rewrite H. Qed.

Lemma fetch_eq s this v :
  entries s !! this = Some v ->
  fetch this s = Ret (match v with Reference t => t | _ => this end) s.
Proof.
  intros H. unfold fetch. rewrite (bind_Ret _ _ _ _ _ (deref_Some _ _ _ H)).
  by destruct v.
Qed.

Lemma get_Object_eq s p o x :
  entries s !! p = Some (Object o) -> objects s !! o = Some x ->
  get_Object p s = Ret o s.
Proof.
  intros Hp Ho. unfold get_Object.
  rewrite (bind_Ret _ _ _ _ _ (deref_Some _ _ _ Hp)).
  by rewrite (bind_Ret _ _ _ _ _ (deref_object_Some _ _ _ Ho)).
Qed.

Lemma get_Array_eq s p a x :
  entries s !! p = Some (Array a) -> arrays s !! a = Some x ->
  get_Array p s = Ret a s.
Proof.
  intros Hp Ha. unfold get_Array.
  rewrite (bind_Ret _ _ _ _ _ (deref_Some _ _ _ Hp)).
  by rewrite (bind_Ret _ _ _ _ _ (deref_array_Some _ _ _ Ha)).
Qed.

(** The unfolding of one call of [as_object]. *)
Lemma as_object_S fuel this :
  as_object (S fuel) this =
  (v <- deref this ;;
   match v with
   | Empty =>
       o <- EntryObject_create (Some this) default_request ;;
       emplace this (Object o)
   | Object _ => ret tt
   | Reference target => _ <- as_object fuel target ;; ret tt
   | _ => throw (runtime_error "illegal type")
   end ;;;
   t <- fetch this ;;
   get_Object t).
Proof. reflexivity. Qed.

Lemma as_array_S fuel this :
  as_array (S fuel) this =
  (v <- deref this ;;
   match v with
   | Empty => a <- EntryArray_create (Some this) ;; emplace this (Array a)
   | Array _ => ret tt
   | Reference target => _ <- as_array fuel target ;; update fuel this
   | _ => throw (runtime_error "illegal type")
   end ;;;
   t <- fetch this ;;
   get_Array t).
Proof. reflexivity. Qed.

Lemma as_object_Empty fuel s this :
  entries s !! this = Some Empty ->
  as_object (S fuel) this s =
  Ret (fresh (dom (objects s))) (promoted_to_object this s).
Proof.
  intros H. rewrite as_object_S.
  rewrite (bind_Ret _ _ _ _ _ (deref_Some _ _ _ H)).
  unfold bind at 1. cbn -[fresh].
  erewrite (bind_Ret (fetch this)); last first.
  { apply fetch_eq. cbn. apply lookup_insert_eq. }
  eapply get_Object_eq; cbn -[fresh]; apply lookup_insert_eq.
Qed.

Lemma as_object_Object fuel s this o x :
  entries s !! this = Some (Object o) -> objects s !! o = Some x ->
  as_object (S fuel) this s = Ret o s.
Proof.
  intros H Ho. rewrite as_object_S.
  rewrite (bind_Ret _ _ _ _ _ (deref_Some _ _ _ H)).
  unfold bind at 1. cbn.
  rewrite (bind_Ret _ _ _ _ _ (fetch_eq _ _ _ H)).
  by eapply get_Object_eq.
Qed.

Lemma as_object_illegal fuel s this v :
  entries s !! this = Some v ->
  index v <> tag_Empty -> index v <> tag_Object -> index v <> tag_Reference ->
  as_object (S fuel) this s = Throw (runtime_error "illegal type") s.
Proof.
  intros H He Ho Hr. rewrite as_object_S.
  rewrite (bind_Ret _ _ _ _ _ (deref_Some _ _ _ H)).
  by destruct v.
Qed.

Lemma as_object_Object_dangling fuel s this o :
  entries s !! this = Some (Object o) -> objects s !! o = None ->
  as_object (S fuel) this s = Halt undefined_behaviour.
Proof.
  intros H Ho. rewrite as_object_S.
  rewrite (bind_Ret _ _ _ _ _ (deref_Some _ _ _ H)).
  unfold bind at 1. cbn.
  rewrite (bind_Ret _ _ _ _ _ (fetch_eq _ _ _ H)).
  unfold get_Object. rewrite (bind_Ret _ _ _ _ _ (deref_Some _ _ _ H)).
  apply bind_Halt. unfold deref_object. by rewrite Ho.
Qed.

(** Through a [Reference], the call runs on the target and the result is
    read back through one [fetch]. *)
Lemma as_object_via_Reference fuel s this target :
  entries s !! this = Some (Reference target) ->
  as_object (S fuel) this s =
  (_ <- as_object fuel target ;; t <- fetch this ;; get_Object t) s.
Proof.
  intros H. rewrite as_object_S.
  rewrite (bind_Ret _ _ _ _ _ (deref_Some _ _ _ H)).
  unfold bind. by destruct (as_object fuel target s).
Qed.

Lemma as_object_Reference fuel s this target :
  entries s !! this = Some (Reference target) ->
  (forall t', entries s !! target <> Some (Reference t')) ->
  as_object (S (S fuel)) this s = as_object (S fuel) target s.
Proof.
  intros H Hnr. rewrite (as_object_via_Reference _ _ _ _ H).
  assert (this <> target) as Hne by (intros ->; by eapply Hnr).
  destruct (entries s !! target) as [v|] eqn:Ht.
  - destruct v as [| t' | b | o | a | sc].
    + rewrite (bind_Ret _ _ _ _ _ (as_object_Empty fuel _ _ Ht)).
      rewrite (as_object_Empty fuel _ _ Ht).
      assert (entries (promoted_to_object target s) !! this = Some (Reference target)) as H'.
      { cbn -[fresh]. by rewrite lookup_insert_ne. }
      rewrite (bind_Ret _ _ _ _ _ (fetch_eq _ _ _ H')).
      eapply get_Object_eq; cbn -[fresh]; apply lookup_insert_eq.
    + by destruct (Hnr t').
    + rewrite (as_object_illegal fuel _ _ _ Ht) by done.
      apply bind_Throw. by apply as_object_illegal with (v := Block b).
    + destruct (objects s !! o) as [x|] eqn:Ho.
      * rewrite (bind_Ret _ _ _ _ _ (as_object_Object fuel _ _ _ _ Ht Ho)).
        rewrite (as_object_Object fuel _ _ _ _ Ht Ho).
        rewrite (bind_Ret _ _ _ _ _ (fetch_eq _ _ _ H)).
        by eapply get_Object_eq.
      * rewrite (as_object_Object_dangling fuel _ _ _ Ht Ho).
        apply bind_Halt. by eapply as_object_Object_dangling.
    + rewrite (as_object_illegal fuel _ _ _ Ht) by done.
      apply bind_Throw. by apply as_object_illegal with (v := Array a).
    + rewrite (as_object_illegal fuel _ _ _ Ht) by done.
      apply bind_Throw. by apply as_object_illegal with (v := Scalar sc).
  - rewrite !as_object_S. rewrite (bind_Halt _ _ _ _ (deref_None _ _ Ht)).
    apply bind_Halt. apply bind_Halt. by apply deref_None.
Qed.

(** ** Walks only extend the store *)

#[local] Instance extends_refl : Reflexive extends.
Proof.
  intros s. split; try done.
  - intros o x Hx. exists x. by repeat split.
  - intros a x' H1 H2. congruence.
Qed.

#[local] Instance extends_trans : Transitive extends.
Proof.
  intros s1 s2 s3 [E1 O1 A1 N1 R1] [E2 O2 A2 N2 R2]. split.
  - intros p v Hv Hne. apply E2; [by apply E1 | done].
  - intros o x Hx. destruct (O1 _ _ Hx) as (x' & Hx' & Hi & Hs & Hc).
    destruct (O2 _ _ Hx') as (x'' & Hx'' & Hi' & Hs' & Hc').
    exists x''. repeat split; [done | congruence | congruence | by etrans].
  - intros a x Hx. by apply A2, A1.
  - intros a x' Hx' Hn. destruct (arrays s2 !! a) as [y|] eqn:Hy.
    + apply A2 in Hy as Hy'. rewrite Hx' in Hy'. injection Hy' as ->. by eapply N1.
    + by eapply N2.
  - intros p t Ht. by apply R1, R2.
Qed.

Lemma ensures_bind {A B} (R : Store -> Store -> Prop) `{!Transitive R}
    (m : St A) (k : A -> St B) s :
  ensures R m s ->
  (forall a s1, m s = Ret a s1 -> ensures R (k a) s1) ->
  ensures R (bind m k) s.
Proof.
  unfold ensures, bind. intros Hm Hk. destruct (m s) as [a s1 | e s1 | h]; [|done..].
  specialize (Hk a s1 eq_refl). destruct (k a s1); [by etrans | by etrans | done].
Qed.

Lemma ensures_unchanged {A} (R : Store -> Store -> Prop) `{!Reflexive R} (m : St A) s :
  ensures eq m s -> ensures R m s.
Proof. unfold ensures. destruct (m s); [by intros <- | by intros <- | done]. Qed.

(** The calls that only read. *)
Lemma deref_unchanged p s : ensures eq (deref p) s.
Proof. unfold ensures, deref. by destruct (entries s !! p). Qed.

Lemma deref_object_unchanged o s : ensures eq (deref_object o) s.
Proof. unfold ensures, deref_object. by destruct (objects s !! o). Qed.

Lemma deref_array_unchanged a s : ensures eq (deref_array a) s.
Proof. unfold ensures, deref_array. by destruct (arrays s !! a). Qed.

Lemma deref_inv p s v s' : deref p s = Ret v s' -> s' = s /\ entries s !! p = Some v.
Proof. unfold deref. destruct (entries s !! p); [|done]. by intros [= <- <-]. Qed.

Lemma deref_object_inv o s x s' :
  deref_object o s = Ret x s' -> s' = s /\ objects s !! o = Some x.
Proof. unfold deref_object. destruct (objects s !! o); [|done]. by intros [= <- <-]. Qed.

Lemma deref_array_inv a s x s' :
  deref_array a s = Ret x s' -> s' = s /\ arrays s !! a = Some x.
Proof. unfold deref_array. destruct (arrays s !! a); [|done]. by intros [= <- <-]. Qed.

Lemma fetch_unchanged p s : ensures eq (fetch p) s.
Proof.
  unfold fetch. apply (ensures_bind eq); [apply deref_unchanged |].
  intros v s1 _. by destruct v.
Qed.

Lemma get_Object_unchanged p s : ensures eq (get_Object p) s.
Proof.
  unfold get_Object. apply (ensures_bind eq); [apply deref_unchanged |].
  intros v s1 _. destruct v; try done.
  apply (ensures_bind eq); [apply deref_object_unchanged | done].
Qed.

Lemma get_Array_unchanged p s : ensures eq (get_Array p) s.
Proof.
  unfold get_Array. apply (ensures_bind eq); [apply deref_unchanged |].
  intros v s1 _. destruct v; try done.
  apply (ensures_bind eq); [apply deref_array_unchanged | done].
Qed.

Lemma update_unchanged fuel : forall p s, ensures eq (update fuel p) s.
Proof.
  induction fuel as [|fuel IH]; intros p s; [done|].
  cbn [update]. apply (ensures_bind eq); [apply deref_unchanged |].
  intros v s1 _. destruct v; try done; apply IH.
Qed.

Lemma Entry_type_unchanged p s : ensures eq (Entry_type p) s.
Proof.
  unfold Entry_type. apply (ensures_bind eq); [apply fetch_unchanged |].
  intros t s1 _. apply (ensures_bind eq); [apply deref_unchanged | done].
Qed.

Lemma as_object_const_unchanged p s : ensures eq (as_object_const p) s.
Proof.
  unfold as_object_const. apply (ensures_bind eq); [apply Entry_type_unchanged |].
  intros ty s1 _. case_decide; [|done].
  apply (ensures_bind eq); [apply fetch_unchanged |].
  intros t s2 _. apply get_Object_unchanged.
Qed.

Lemma as_array_const_unchanged p s : ensures eq (as_array_const p) s.
Proof.
  unfold as_array_const. apply (ensures_bind eq); [apply deref_unchanged |].
  intros v s1 _. case_decide; [|done].
  apply (ensures_bind eq); [apply fetch_unchanged |].
  intros t s2 _. apply get_Array_unchanged.
Qed.

Lemma EntryObjectDefault_at_unchanged o k s : ensures eq (EntryObjectDefault_at o k) s.
Proof.
  unfold EntryObjectDefault_at.
  apply (ensures_bind eq); [apply deref_object_unchanged |].
  intros x s1 _. by destruct (m_container_ x !! k).
Qed.

Lemma at_key_unchanged o k s : ensures eq (at_key o k) s.
Proof.
  unfold at_key. apply (ensures_bind eq); [apply deref_object_unchanged |].
  intros x s1 _. destruct (impl x); [apply EntryObjectDefault_at_unchanged | done].
Qed.

Lemma EntryArrayDefault_at_unchanged a i s : ensures eq (EntryArrayDefault_at a i) s.
Proof.
  unfold EntryArrayDefault_at.
  apply (ensures_bind eq); [apply deref_array_unchanged |].
  intros x s1 _. by destruct (a_container_ x !! _).
Qed.

Lemma at_from_unchanged path : forall p s, ensures eq (at_from p path) s.
Proof.
  induction path as [|[k|i] rest IH]; intros p s; [done | |]; cbn [at_from].
  - apply (ensures_bind eq); [apply as_object_const_unchanged |].
    intros o s1 _. apply (ensures_bind eq); [apply at_key_unchanged |].
    intros c s2 _. apply IH.
  - apply (ensures_bind eq); [apply as_array_const_unchanged |].
    intros a s1 _. apply (ensures_bind eq); [apply EntryArrayDefault_at_unchanged |].
    intros c s2 _. apply IH.
Qed.

(** The calls that write. *)
Lemma ensures_ret {A} (R : Store -> Store -> Prop) `{!Reflexive R} (a : A) s :
  ensures R (ret a) s.
Proof. unfold ensures. cbn. reflexivity. Qed.

Lemma ensures_throw {A} (R : Store -> Store -> Prop) `{!Reflexive R} e s :
  ensures R (throw (A := A) e) s.
Proof. unfold ensures. cbn. reflexivity. Qed.

Lemma promoted_to_object_extends this s :
  entries s !! this = Some Empty -> extends s (promoted_to_object this s).
Proof.
  intros H. unfold promoted_to_object.
  pose proof (is_fresh (dom (objects s))) as Hf. apply not_elem_of_dom in Hf.
  split; cbn -[fresh].
  - intros p v Hv Hne. rewrite lookup_insert_ne; [done | congruence].
  - intros o x Hx. exists x. rewrite lookup_insert_ne; [done | congruence].
  - done.
  - intros a x' H1 H2. congruence.
  - intros p t. destruct (decide (this = p)) as [->|Hne].
    + by rewrite lookup_insert_eq.
    + by rewrite lookup_insert_ne.
Qed.

(** The store after an Empty entry at [this] was promoted to an Array. *)
Lemma promoted_to_array_extends this s :
  entries s !! this = Some Empty ->
  extends s (set_entries <[this := Array (fresh (dom (arrays s)))]>
               (set_arrays <[fresh (dom (arrays s)) := mkArray (Some this) [] 0]> s)).
Proof.
  intros H.
  pose proof (is_fresh (dom (arrays s))) as Hf. apply not_elem_of_dom in Hf.
  split; cbn -[fresh].
  - intros p v Hv Hne. rewrite lookup_insert_ne; [done | congruence].
  - intros o x Hx. exists x. by repeat split.
  - intros a x Hx. rewrite lookup_insert_ne; [done | congruence].
  - intros a x'. destruct (decide (fresh (dom (arrays s)) = a)) as [<-|Hne].
    + rewrite lookup_insert_eq. by intros [= <-].
    + rewrite lookup_insert_ne by done. congruence.
  - intros p t. destruct (decide (this = p)) as [->|Hne].
    + by rewrite lookup_insert_eq.
    + by rewrite lookup_insert_ne.
Qed.

Lemma as_object_extends fuel : forall this s, ensures extends (as_object fuel this) s.
Proof.
  induction fuel as [|fuel IH]; intros this s; [done|].
  rewrite as_object_S.
  apply (ensures_bind extends); [apply ensures_unchanged, deref_unchanged; apply _ |].
  intros v s1 [-> Hv]%deref_inv.
  apply (ensures_bind extends).
  - destruct v as [| target | b | o | a | sc];
      try (by apply (ensures_throw extends)); try (by apply (ensures_ret extends)).
    + by apply promoted_to_object_extends.
    + apply (ensures_bind extends); [apply IH | intros; by apply (ensures_ret extends)].
  - intros _ s1 _. apply ensures_unchanged; [apply _|].
    apply (ensures_bind eq); [apply fetch_unchanged |].
    intros t s2 _. apply get_Object_unchanged.
Qed.

Lemma as_array_extends fuel : forall this s, ensures extends (as_array fuel this) s.
Proof.
  induction fuel as [|fuel IH]; intros this s; [done|].
  rewrite as_array_S.
  apply (ensures_bind extends); [apply ensures_unchanged, deref_unchanged; apply _ |].
  intros v s1 [-> Hv]%deref_inv.
  apply (ensures_bind extends).
  - destruct v as [| target | b | o | a | sc];
      try (by apply (ensures_throw extends)); try (by apply (ensures_ret extends)).
    + by apply promoted_to_array_extends.
    + apply (ensures_bind extends); [apply IH |].
      intros _ s1 _. apply ensures_unchanged; [apply _ | apply update_unchanged].
  - intros _ s1 _. apply ensures_unchanged; [apply _|].
    apply (ensures_bind eq); [apply fetch_unchanged |].
    intros t s2 _. apply get_Array_unchanged.
Qed.

Lemma EntryObjectDefault_insert_new s o x name :
  objects s !! o = Some x -> m_container_ x !! name = None ->
  EntryObjectDefault_insert o name s =
  Ret (fresh (dom (entries s))) (with_new_child o x name s).
Proof.
  intros Ho Hk. unfold EntryObjectDefault_insert.
  rewrite (bind_Ret _ _ _ _ _ (deref_object_Some _ _ _ Ho)). by rewrite Hk.
Qed.

Lemma EntryObjectDefault_insert_old s o x name c :
  objects s !! o = Some x -> m_container_ x !! name = Some c ->
  EntryObjectDefault_insert o name s = Ret c s.
Proof.
  intros Ho Hk. unfold EntryObjectDefault_insert.
  rewrite (bind_Ret _ _ _ _ _ (deref_object_Some _ _ _ Ho)). by rewrite Hk.
Qed.

Lemma with_new_child_extends s o x name :
  objects s !! o = Some x -> m_container_ x !! name = None ->
  extends s (with_new_child o x name s).
Proof.
  intros Ho Hk. unfold with_new_child.
  pose proof (is_fresh (dom (entries s))) as Hf. apply not_elem_of_dom in Hf.
  split; cbn -[fresh].
  - intros p v Hv Hne. rewrite lookup_insert_ne; [done | congruence].
  - intros o' x' Hx'. destruct (decide (o = o')) as [<-|Hne].
    + rewrite lookup_insert_eq. eexists. split; [done|]. cbn.
      assert (x' = x) as -> by congruence.
      repeat split. by apply insert_subseteq.
    + rewrite lookup_insert_ne by done. exists x'. by repeat split.
  - done.
  - intros a x' H1 H2. congruence.
  - intros p t. destruct (decide (fresh (dom (entries s)) = p)) as [<-|Hne].
    + by rewrite lookup_insert_eq.
    + by rewrite lookup_insert_ne.
Qed.

Lemma EntryObjectDefault_insert_extends o name s :
  ensures extends (EntryObjectDefault_insert o name) s.
Proof.
  unfold ensures. destruct (objects s !! o) as [x|] eqn:Ho.
  - destruct (m_container_ x !! name) as [c|] eqn:Hk.
    + by rewrite (EntryObjectDefault_insert_old _ _ _ _ _ Ho Hk).
    + rewrite (EntryObjectDefault_insert_new _ _ _ _ Ho Hk).
      by apply with_new_child_extends.
  - unfold EntryObjectDefault_insert, bind, deref_object. by rewrite Ho.
Qed.

Lemma insert_key_extends o name s : ensures extends (insert_key o name) s.
Proof.
  unfold insert_key.
  apply (ensures_bind extends); [apply ensures_unchanged, deref_object_unchanged; apply _ |].
  intros x s1 _. destruct (impl x); [apply EntryObjectDefault_insert_extends | done].
Qed.

Lemma insert_from_extends fuel path :
  forall p s, ensures extends (insert_from fuel p path) s.
Proof.
  induction path as [|[k|i] rest IH]; intros p s; cbn [insert_from].
  - by apply (ensures_ret extends).
  - apply (ensures_bind extends); [apply as_object_extends |].
    intros o s1 _. apply (ensures_bind extends); [apply insert_key_extends |].
    intros c s2 _. apply IH.
  - apply (ensures_bind extends); [apply as_array_extends |].
    intros a s1 _. apply (ensures_bind extends).
    + apply ensures_unchanged; [apply _ | apply EntryArrayDefault_at_unchanged].
    + intros c s2 _. apply IH.
Qed.

(** ** Paths *)

Lemma bind_assoc {A B C} (m : St A) (k : A -> St B) (h : B -> St C) s :
  bind (bind m k) h s = bind m (fun a => bind (k a) h) s.
Proof. unfold bind. by destruct (m s). Qed.

Lemma bind_ext {A B} (m : St A) (k k' : A -> St B) s :
  (forall a s', k a s' = k' a s') -> bind m k s = bind m k' s.
Proof. intros H. unfold bind. by destruct (m s). Qed.

Lemma bind_Ret_inv {A B} (m : St A) (k : A -> St B) s b s' :
  bind m k s = Ret b s' -> exists a s1, m s = Ret a s1 /\ k a s1 = Ret b s'.
Proof. unfold bind. destruct (m s) as [a s1| |]; [|done..]. by exists a, s1. Qed.

(** Walking [pre ++ post] is walking [pre] and then [post] from where
    [pre] ended. *)
Lemma insert_from_app fuel pre post :
  forall p s,
    insert_from fuel p (pre ++ post) s =
    (q <- insert_from fuel p pre ;; insert_from fuel q post) s.
Proof.
  induction pre as [|[k|i] pre IH]; intros p s; [done | |];
    cbn [insert_from app]; rewrite bind_assoc; apply bind_ext; intros x s1;
    rewrite bind_assoc; apply bind_ext; intros c s2; apply IH.
Qed.

Lemma at_from_app pre post :
  forall p s,
    at_from p (pre ++ post) s = (q <- at_from p pre ;; at_from q post) s.
Proof.
  induction pre as [|[k|i] pre IH]; intros p s; [done | |];
    cbn [at_from app]; rewrite bind_assoc; apply bind_ext; intros x s1;
    rewrite bind_assoc; apply bind_ext; intros c s2; apply IH.
Qed.

(** ** Range checks of EntryArrayDefault::at *)

Lemma size_t_of_int_nonneg i : (0 <= i < 2 ^ 64)%Z -> size_t_of_int i = i.
Proof. intros H. unfold size_t_of_int. by apply Z.mod_small. Qed.

Lemma size_t_of_int_neg i : (- 2 ^ 64 <= i < 0)%Z -> size_t_of_int i = (i + 2 ^ 64)%Z.
Proof.
  intros H. unfold size_t_of_int.
  rewrite <- (Z.mod_add i 1 (2 ^ 64)) by lia. apply Z.mod_small. lia.
Qed.


Lemma EntryArrayDefault_at_past_size s a x i :
  arrays s !! a = Some x ->
  (Z.of_nat (length (a_container_ x)) <= i < 2 ^ 64)%Z ->
  EntryArrayDefault_at a i s = Throw out_of_range s.
Proof.
  intros Ha Hi. unfold EntryArrayDefault_at.
  rewrite (bind_Ret _ _ _ _ _ (deref_array_Some _ _ _ Ha)).
  rewrite size_t_of_int_nonneg by lia.
  rewrite lookup_ge_None_2; [done | lia].
Qed.

Lemma EntryArrayDefault_at_negative s a x i :
  arrays s !! a = Some x ->
  (Z.of_nat (length (a_container_ x)) <= vector_max_size)%Z ->
  (- 2 ^ 31 <= i < 0)%Z ->
  EntryArrayDefault_at a i s = Throw out_of_range s.
Proof.
  intros Ha Hmax Hi. unfold EntryArrayDefault_at.
  rewrite (bind_Ret _ _ _ _ _ (deref_array_Some _ _ _ Ha)).
  rewrite size_t_of_int_neg by lia.
  unfold vector_max_size in Hmax.
  rewrite lookup_ge_None_2; [done | lia].
Qed.

Lemma extends_arrays_kept s s' : extends s s' -> arrays_kept s s'.
Proof. intros [_ _ A N _]. by split. Qed.

Lemma ensures_mono {A} (R R' : Store -> Store -> Prop) (m : St A) s :
  (forall s1 s2, R s1 s2 -> R' s1 s2) -> ensures R m s -> ensures R' m s.
Proof. intros H. unfold ensures. destruct (m s); auto. Qed.

Lemma insert_from_index_past_size fuel s p pre i rest q s1 a s2 x :
  insert_from fuel p pre s = Ret q s1 ->
  as_array fuel q s1 = Ret a s2 ->
  arrays s2 !! a = Some x ->
  (Z.of_nat (length (a_container_ x)) <= i < 2 ^ 64)%Z ->
  insert_from fuel p (pre ++ Index i :: rest) s = Throw out_of_range s2.
Proof.
  intros Hpre Harr Ha Hi. rewrite insert_from_app.
  rewrite (bind_Ret _ _ _ _ _ Hpre). cbn [insert_from].
  rewrite (bind_Ret _ _ _ _ _ Harr).
  apply bind_Throw. by eapply EntryArrayDefault_at_past_size.
Qed.

Lemma at_from_index_past_size s p pre i rest q s1 a s2 x :
  at_from p pre s = Ret q s1 ->
  as_array_const q s1 = Ret a s2 ->
  arrays s2 !! a = Some x ->
  (Z.of_nat (length (a_container_ x)) <= i < 2 ^ 64)%Z ->
  at_from p (pre ++ Index i :: rest) s = Throw out_of_range s2.
Proof.
  intros Hpre Harr Ha Hi. rewrite at_from_app.
  rewrite (bind_Ret _ _ _ _ _ Hpre). cbn [at_from].
  rewrite (bind_Ret _ _ _ _ _ Harr).
  apply bind_Throw. by eapply EntryArrayDefault_at_past_size.
Qed.

(** ** insert, then at *)

Lemma ensures_Ret {A} (R : Store -> Store -> Prop) (m : St A) s a s' :
  ensures R m s -> m s = Ret a s' -> R s s'.
Proof. unfold ensures. intros H E. by rewrite E in H. Qed.

Lemma fetch_inv this s t s' :
  fetch this s = Ret t s' ->
  s' = s /\ exists v, entries s !! this = Some v /\
                      t = match v with Reference target => target | _ => this end.
Proof.
  unfold fetch. intros (v & s1 & [-> Hv]%deref_inv & H)%bind_Ret_inv.
  destruct v; injection H as <- <-; eauto.
Qed.

Lemma get_Object_inv p s o s' :
  get_Object p s = Ret o s' ->
  s' = s /\ entries s !! p = Some (Object o) /\ is_Some (objects s !! o).
Proof.
  unfold get_Object. intros (v & s1 & [-> Hv]%deref_inv & H)%bind_Ret_inv.
  destruct v; try done.
  apply bind_Ret_inv in H as (x & s1 & [-> Hx]%deref_object_inv & [= <- <-]).
  eauto.
Qed.

Lemma get_Array_inv p s a s' :
  get_Array p s = Ret a s' ->
  s' = s /\ entries s !! p = Some (Array a) /\ is_Some (arrays s !! a).
Proof.
  unfold get_Array. intros (v & s1 & [-> Hv]%deref_inv & H)%bind_Ret_inv.
  destruct v; try done.
  apply bind_Ret_inv in H as (x & s1 & [-> Hx]%deref_array_inv & [= <- <-]).
  eauto.
Qed.

(** When the non-const [as_object] returns, the entry, or the target of
    its one hop, holds the object returned. *)
Lemma as_object_Ret_inv fuel this s o s' :
  as_object fuel this s = Ret o s' ->
  exists v, entries s' !! this = Some v /\
            entries s' !! (match v with Reference t => t | _ => this end) = Some (Object o) /\
            is_Some (objects s' !! o).
Proof.
  destruct fuel as [|fuel]; [done|]. rewrite as_object_S.
  intros (v0 & s0 & _ & H)%bind_Ret_inv.
  apply bind_Ret_inv in H as (_ & s1 & _ & H).
  apply bind_Ret_inv in H as (t & s2 & (-> & v & Hv & ->)%fetch_inv & H).
  apply get_Object_inv in H as (-> & Ht & Ho). eauto.
Qed.

Lemma as_array_Ret_inv fuel this s a s' :
  as_array fuel this s = Ret a s' ->
  exists v, entries s' !! this = Some v /\
            entries s' !! (match v with Reference t => t | _ => this end) = Some (Array a) /\
            is_Some (arrays s' !! a).
Proof.
  destruct fuel as [|fuel]; [done|]. rewrite as_array_S.
  intros (v0 & s0 & _ & H)%bind_Ret_inv.
  apply bind_Ret_inv in H as (_ & s1 & _ & H).
  apply bind_Ret_inv in H as (t & s2 & (-> & v & Hv & ->)%fetch_inv & H).
  apply get_Array_inv in H as (-> & Ht & Ha). eauto.
Qed.

Lemma as_object_const_eq s p o x :
  entries s !! p = Some (Object o) -> objects s !! o = Some x ->
  as_object_const p s = Ret o s.
Proof.
  intros Hp Ho. unfold as_object_const.
  assert (Entry_type p s = Ret tag_Object s) as Hty.
  { unfold Entry_type. rewrite (bind_Ret _ _ _ _ _ (fetch_eq _ _ _ Hp)).
    by rewrite (bind_Ret _ _ _ _ _ (deref_Some _ _ _ Hp)). }
  rewrite (bind_Ret _ _ _ _ _ Hty).
  case_decide; [|done]. rewrite (bind_Ret _ _ _ _ _ (fetch_eq _ _ _ Hp)).
  by eapply get_Object_eq.
Qed.

Lemma as_array_const_eq s p a x :
  entries s !! p = Some (Array a) -> arrays s !! a = Some x ->
  as_array_const p s = Ret a s.
Proof.
  intros Hp Ha. unfold as_array_const.
  rewrite (bind_Ret _ _ _ _ _ (deref_Some _ _ _ Hp)).
  case_decide; [|done]. rewrite (bind_Ret _ _ _ _ _ (fetch_eq _ _ _ Hp)).
  by eapply get_Array_eq.
Qed.

Lemma at_key_eq s o x k c :
  objects s !! o = Some x -> impl x = InMemory -> m_container_ x !! k = Some c ->
  at_key o k s = Ret c s.
Proof.
  intros Ho Hi Hk. unfold at_key.
  rewrite (bind_Ret _ _ _ _ _ (deref_object_Some _ _ _ Ho)). rewrite Hi.
  unfold EntryObjectDefault_at.
  rewrite (bind_Ret _ _ _ _ _ (deref_object_Some _ _ _ Ho)). by rewrite Hk.
Qed.

(** When [insert(key)] returns, the child is in the object under the key. *)
Lemma insert_key_Ret_inv o k s c s' :
  insert_key o k s = Ret c s' ->
  exists x', objects s' !! o = Some x' /\ impl x' = InMemory /\
             m_container_ x' !! k = Some c.
Proof.
  unfold insert_key. intros (x & s1 & [-> Hx]%deref_object_inv & H)%bind_Ret_inv.
  destruct (impl x) eqn:Hi; [|done].
  destruct (m_container_ x !! k) as [c'|] eqn:Hk.
  - rewrite (EntryObjectDefault_insert_old _ _ _ _ _ Hx Hk) in H.
    injection H as <- <-. eauto.
  - rewrite (EntryObjectDefault_insert_new _ _ _ _ Hx Hk) in H.
    injection H as <- <-. eexists. split; [apply lookup_insert_eq|].
    split; [done|]. cbn -[fresh]. apply lookup_insert_eq.
Qed.

Lemma EntryArrayDefault_at_Ret_inv a i s c s' :
  EntryArrayDefault_at a i s = Ret c s' ->
  s' = s /\ exists x, arrays s !! a = Some x /\
                      a_container_ x !! Z.to_nat (size_t_of_int i) = Some c.
Proof.
  unfold EntryArrayDefault_at.
  intros (x & s1 & [-> Hx]%deref_array_inv & H)%bind_Ret_inv.
  destruct (a_container_ x !! _) eqn:Hc; [|done].
  injection H as <- <-. eauto.
Qed.

Lemma EntryArrayDefault_at_eq a i s x c :
  arrays s !! a = Some x ->
  a_container_ x !! Z.to_nat (size_t_of_int i) = Some c ->
  EntryArrayDefault_at a i s = Ret c s.
Proof.
  intros Ha Hc. unfold EntryArrayDefault_at.
  rewrite (bind_Ret _ _ _ _ _ (deref_array_Some _ _ _ Ha)). by rewrite Hc.
Qed.

Lemma extends_no_references s s' : extends s s' -> no_references s -> no_references s'.
Proof. intros E H q t Hq. apply (H q t). by apply (ext_references _ _ E). Qed.

(** On a plain tree, the node [insert] returns for a path is the node [at]
    then finds for that path. *)
Lemma insert_then_at_plain_tree fuel path :
  forall p s c s',
    no_references s ->
    insert_from fuel p path s = Ret c s' ->
    at_from p path s' = Ret c s'.
Proof.
  induction path as [|[k|i] rest IH]; intros p s c s' Hnr; cbn [insert_from at_from].
  - by intros [= <- <-].
  - intros (o & s1 & Hobj & H)%bind_Ret_inv.
    apply bind_Ret_inv in H as (c1 & s2 & Hins & Hrest).
    pose proof (ensures_Ret _ _ _ _ _ (as_object_extends fuel p s) Hobj) as E1.
    pose proof (ensures_Ret _ _ _ _ _ (insert_key_extends o k s1) Hins) as E2.
    pose proof (ensures_Ret _ _ _ _ _ (insert_from_extends fuel rest c1 s2) Hrest) as E3.
    pose proof (extends_no_references _ _ E1 Hnr) as Hnr1.
    pose proof (extends_no_references _ _ E2 Hnr1) as Hnr2.
    apply as_object_Ret_inv in Hobj as (v & Hv & Ho & _).
    assert (entries s1 !! p = Some (Object o)) as Hp.
    { destruct v; try done. by destruct (Hnr1 p target). }
    apply insert_key_Ret_inv in Hins as (x2 & Hx2 & Himpl & Hk).
    assert (entries s' !! p = Some (Object o)) as Hp'.
    { apply (ext_entries _ _ E3); [|done]. by apply (ext_entries _ _ E2). }
    destruct (ext_objects _ _ E3 _ _ Hx2) as (x' & Hx' & Hi' & _ & Hsub).
    rewrite (bind_Ret _ _ _ _ _ (as_object_const_eq _ _ _ _ Hp' Hx')).
    erewrite (bind_Ret (at_key o k)); last first.
    { eapply at_key_eq; [done | congruence |]. by eapply lookup_weaken. }
    by eapply IH.
  - intros (a & s1 & Harr & H)%bind_Ret_inv.
    apply bind_Ret_inv in H as (c1 & s2 & Hat & Hrest).
    apply EntryArrayDefault_at_Ret_inv in Hat as (-> & x & Hx & Hc).
    pose proof (ensures_Ret _ _ _ _ _ (as_array_extends fuel p s) Harr) as E1.
    pose proof (ensures_Ret _ _ _ _ _ (insert_from_extends fuel rest c1 s1) Hrest) as E3.
    pose proof (extends_no_references _ _ E1 Hnr) as Hnr1.
    apply as_array_Ret_inv in Harr as (v & Hv & Ha & _).
    assert (entries s1 !! p = Some (Array a)) as Hp.
    { destruct v; try done. by destruct (Hnr1 p target). }
    assert (entries s' !! p = Some (Array a)) as Hp' by (by apply (ext_entries _ _ E3)).
    pose proof (ext_arrays _ _ E3 _ _ Hx) as Hx'.
    rewrite (bind_Ret _ _ _ _ _ (as_array_const_eq _ _ _ _ Hp' Hx')).
    rewrite (bind_Ret _ _ _ _ _ (EntryArrayDefault_at_eq _ _ _ _ _ Hx' Hc)).
    by eapply IH.
Qed.

(** The same for the two member functions, which start at [m_self_]. *)
Lemma EntryObject_insert_then_at fuel o path s c s' :
  no_references s ->
  EntryObject_insert fuel o path s = Ret c s' ->
  EntryObject_at o path s' = Ret c s'.
Proof.
  intros Hnr. unfold EntryObject_insert, EntryObject_at.
  intros (x & s1 & [-> Hx]%deref_object_inv & H)%bind_Ret_inv.
  destruct (m_self_ x) as [p|] eqn:Hself; [|done].
  pose proof (ensures_Ret _ _ _ _ _ (insert_from_extends fuel path p s) H) as E.
  destruct (ext_objects _ _ E _ _ Hx) as (x' & Hx' & _ & Hs & _).
  rewrite (bind_Ret _ _ _ _ _ (deref_object_Some _ _ _ Hx')).
  rewrite Hs, Hself. by eapply insert_then_at_plain_tree.
Qed.

(** ** Cutting the scheme out of a request *)

Import StdString.

Lemma string_find_app c a b :
  occurs c a = false -> string_find c (a +:+ String c b) = Some (String.length a).
Proof.
  induction a as [|x a IH]; simpl; intros H.
  - by rewrite Ascii.eqb_refl.
  - apply orb_false_iff in H as [-> H]. by rewrite IH.
Qed.

Lemma string_find_None c s : occurs c s = false -> string_find c s = None.
Proof.
  induction s as [|x s IH]; simpl; intros H; [done|].
  apply orb_false_iff in H as [-> H]. by rewrite IH.
Qed.

Lemma string_rfind_None c s : occurs c s = false -> string_rfind c s = None.
Proof.
  induction s as [|x s IH]; simpl; intros H; [done|].
  apply orb_false_iff in H as [-> H]. by rewrite IH.
Qed.

Lemma string_rfind_app c a b :
  occurs c b = false -> string_rfind c (a +:+ String c b) = Some (String.length a).
Proof.
  intros H. induction a as [|x a IH]; simpl.
  - by rewrite (string_rfind_None _ _ H), Ascii.eqb_refl.
  - by rewrite IH.
Qed.

Lemma substr_to_app a b : substr_to (String.length a) (a +:+ b) = a.
Proof.
  induction a as [|x a IH]; simpl.
  - by destruct b.
  - by rewrite IH.
Qed.

Lemma substr_from_app a b : substr_from (String.length a) (a +:+ b) = b.
Proof. induction a as [|x a IH]; simpl; [done | by rewrite IH]. Qed.

Lemma occurs_app c a b : occurs c (a +:+ b) = occurs c a || occurs c b.
Proof.
  induction a as [|x a IH]; simpl; [done|]. by rewrite IH, orb_assoc.
Qed.

(** A request with a colon: the scheme is what stands before the first. *)
Lemma schema_of_colon a b :
  occurs ":" a = false -> schema_of (a +:+ String ":" b) = a.
Proof.
  intros H. unfold schema_of. rewrite (string_find_app _ _ _ H). apply substr_to_app.
Qed.

(** No colon, but a dot: the scheme is the text from the last dot on, the
    dot included. *)
Lemma schema_of_extension a b :
  occurs ":" (a +:+ String "." b) = false -> occurs "." b = false ->
  schema_of (a +:+ String "." b) = String "." b.
Proof.
  intros Hc Hd. unfold schema_of. rewrite (string_find_None _ _ Hc).
  rewrite (string_rfind_app _ _ _ Hd). apply substr_from_app.
Qed.

(** Neither a colon nor a dot: the scheme is the whole request. *)
Lemma schema_of_plain request :
  occurs ":" request = false -> occurs "." request = false ->
  schema_of request = request.
Proof.
  intros Hc Hd. unfold schema_of. by rewrite (string_find_None _ _ Hc), (string_rfind_None _ _ Hd).
Qed.

(** ** EntryObject::create *)

Lemma create_empty_request self s :
  EntryObject_create self "" s =
  Ret (fresh (dom (objects s)))
      (set_objects <[fresh (dom (objects s)) := mkObject InMemory self ∅]> s).
Proof. reflexivity. Qed.

Lemma String_eqb_false (a b : string) : a <> b -> String.eqb a b = false.
Proof. intros H. by apply String.eqb_neq. Qed.

Lemma set_self_after_new o x self s :
  set_self o self (set_objects <[o := x]> s) =
  Ret tt (set_objects <[o := mkObject (impl x) self (m_container_ x)]> s).
Proof.
  unfold set_self.
  erewrite bind_Ret; last by (apply deref_object_Some; cbn; apply lookup_insert_eq).
  unfold modify, set_objects. cbn. by rewrite insert_insert_eq.
Qed.

Lemma create_empty_schema self request s :
  schema_of request = "" ->
  EntryObject_create self request s =
  Ret (fresh (dom (objects s)))
      (set_objects <[fresh (dom (objects s)) := mkObject InMemory self ∅]> s).
Proof.
  intros H. unfold EntryObject_create. destruct (String.eqb request "") eqn:Hr; [done|].
  rewrite H. cbn -[fresh]. by rewrite (bind_Ret _ _ _ _ _ (set_self_after_new _ _ _ _)).
Qed.

Lemma create_registered self request s :
  request <> "" ->
  schema_of request <> "" -> schema_of request <> "http" -> schema_of request <> "https" ->
  schema_of request ∈ creators s ->
  EntryObject_create self request s =
  Ret (fresh (dom (objects s)))
      (set_objects
         <[fresh (dom (objects s)) := mkObject (Plugin (schema_of request)) self ∅]> s).
Proof.
  intros Hr H0 H1 H2 Hin. unfold EntryObject_create.
  rewrite (String_eqb_false _ _ Hr), (String_eqb_false _ _ H0),
    (String_eqb_false _ _ H1), (String_eqb_false _ _ H2).
  cbn -[fresh]. rewrite bool_decide_eq_true_2 by done.
  cbn -[fresh]. by rewrite (bind_Ret _ _ _ _ _ (set_self_after_new _ _ _ _)).
Qed.

Lemma create_unregistered self request s :
  request <> "" ->
  schema_of request <> "" -> schema_of request <> "http" -> schema_of request <> "https" ->
  schema_of request ∉ creators s ->
  EntryObject_create self request s =
  Throw (runtime_error (unknown_backend_message s +:+ schema_of request)) s.
Proof.
  intros Hr H0 H1 H2 Hin. unfold EntryObject_create, unknown_backend_message.
  rewrite (String_eqb_false _ _ Hr), (String_eqb_false _ _ H0),
    (String_eqb_false _ _ H1), (String_eqb_false _ _ H2).
  cbn -[fresh]. rewrite bool_decide_eq_false_2 by done.
  by destruct (RUNTIME_ERROR_throws s).
Qed.

(** ** EntryObjectDefault::insert *)

Lemma EntryObjectDefault_insert_again o k s c s' :
  EntryObjectDefault_insert o k s = Ret c s' ->
  EntryObjectDefault_insert o k s' = Ret c s'.
Proof.
  unfold EntryObjectDefault_insert at 1.
  intros (x & s1 & [-> Hx]%deref_object_inv & H)%bind_Ret_inv.
  destruct (m_container_ x !! k) as [c'|] eqn:Hk.
  - injection H as <- <-. by eapply EntryObjectDefault_insert_old.
  - change (Ret (fresh (dom (entries s))) (with_new_child o x k s) = Ret c s') in H.
    injection H as <- <-.
    eapply EntryObjectDefault_insert_old.
    + cbn -[fresh]. apply lookup_insert_eq.
    + cbn -[fresh]. apply lookup_insert_eq.
Qed.

(** ** EntryArrayDefault::pop_back *)


Lemma EntryArrayDefault_pop_back_empty s a x :
  arrays s !! a = Some x -> a_container_ x = [] ->
  EntryArrayDefault_pop_back a s = Halt undefined_behaviour.
Proof.
  intros Ha Hl. unfold EntryArrayDefault_pop_back.
  rewrite (bind_Ret _ _ _ _ _ (deref_array_Some _ _ _ Ha)). by rewrite Hl.
Qed.

(** ** The recursion budget *)

(** A call that did not use up its budget gives the same outcome with any
    larger budget. *)
Lemma bind_within_budget {A B} (m : St A) (k : A -> St B) s :
  bind m k s <> Halt out_of_fuel -> m s <> Halt out_of_fuel.
Proof. unfold bind. intros H E. by rewrite E in H. Qed.

Lemma bind_fuel_mono {A B} (m m' : St A) (k k' : A -> St B) s :
  bind m k s <> Halt out_of_fuel ->
  (m s <> Halt out_of_fuel -> m' s = m s) ->
  (forall a s1, m s = Ret a s1 -> k a s1 <> Halt out_of_fuel -> k' a s1 = k a s1) ->
  bind m' k' s = bind m k s.
Proof.
  intros H Hm Hk. pose proof (bind_within_budget _ _ _ H) as Hm'.
  unfold bind in *. rewrite (Hm Hm'). destruct (m s) as [a s1| |]; [|done..].
  by apply Hk.
Qed.

Lemma update_fuel_mono fuel :
  forall fuel' p s,
    (fuel <= fuel')%nat -> update fuel p s <> Halt out_of_fuel ->
    update fuel' p s = update fuel p s.
Proof.
  induction fuel as [|fuel IH]; intros fuel' p s Hle H; [done|].
  destruct fuel' as [|fuel']; [lia|]. cbn [update] in *.
  apply bind_fuel_mono; [done | done |].
  intros v s1 _ Hk. destruct v; try done. apply IH; [lia | done].
Qed.

Lemma as_object_fuel_mono fuel :
  forall fuel' this s,
    (fuel <= fuel')%nat -> as_object fuel this s <> Halt out_of_fuel ->
    as_object fuel' this s = as_object fuel this s.
Proof.
  induction fuel as [|fuel IH]; intros fuel' this s Hle H; [done|].
  destruct fuel' as [|fuel']; [lia|]. rewrite !as_object_S in *.
  apply bind_fuel_mono; [done | done |].
  intros v s1 _ Hk. apply bind_fuel_mono; [done | | done].
  destruct v; try done. intros Hb.
  apply bind_fuel_mono; [done | | done].
  intros Hr. apply IH; [lia | done].
Qed.

Lemma as_array_fuel_mono fuel :
  forall fuel' this s,
    (fuel <= fuel')%nat -> as_array fuel this s <> Halt out_of_fuel ->
    as_array fuel' this s = as_array fuel this s.
Proof.
  induction fuel as [|fuel IH]; intros fuel' this s Hle H; [done|].
  destruct fuel' as [|fuel']; [lia|]. rewrite !as_array_S in *.
  apply bind_fuel_mono; [done | done |].
  intros v s1 _ Hk. apply bind_fuel_mono; [done | | done].
  destruct v; try done. intros Hb.
  apply bind_fuel_mono; [done | |].
  - intros Hr. apply IH; [lia | done].
  - intros _ s2 _ Hu. apply update_fuel_mono; [lia | done].
Qed.

Lemma insert_from_fuel_mono fuel fuel' path :
  forall p s,
    (fuel <= fuel')%nat -> insert_from fuel p path s <> Halt out_of_fuel ->
    insert_from fuel' p path s = insert_from fuel p path s.
Proof.
  induction path as [|[k|i] rest IH]; intros p s Hle H; [done | |];
    cbn [insert_from] in *.
  - apply bind_fuel_mono; [done | |].
    + intros Ho. by apply as_object_fuel_mono.
    + intros o s1 _ Hk. apply bind_fuel_mono; [done | done |].
      intros c s2 _ Hr. by apply IH.
  - apply bind_fuel_mono; [done | |].
    + intros Ha. by apply as_array_fuel_mono.
    + intros a s1 _ Hk. apply bind_fuel_mono; [done | done |].
      intros c s2 _ Hr. by apply IH.
Qed.

Lemma EntryObject_insert_fuel_mono fuel fuel' o path s :
  (fuel <= fuel')%nat -> EntryObject_insert fuel o path s <> Halt out_of_fuel ->
  EntryObject_insert fuel' o path s = EntryObject_insert fuel o path s.
Proof.
  intros Hle H. unfold EntryObject_insert in *.
  apply bind_fuel_mono; [done | done |].
  intros x s1 _ Hk. destruct (m_self_ x); [|done].
  by apply insert_from_fuel_mono.
Qed.

(** ** Reference cycles *)

Lemma as_object_on_cycle s C fuel :
  reference_cycle s C -> forall p, p ∈ C -> as_object fuel p s = Halt out_of_fuel.
Proof.
  intros HC. induction fuel as [|fuel IH]; intros p Hp; [done|].
  destruct (HC p Hp) as (t & Ht & Hpt).
  rewrite (as_object_via_Reference _ _ _ _ Hpt). apply bind_Halt. by apply IH.
Qed.

Lemma as_array_on_cycle s C fuel :
  reference_cycle s C -> forall p, p ∈ C -> as_array fuel p s = Halt out_of_fuel.
Proof.
  intros HC. induction fuel as [|fuel IH]; intros p Hp; [done|].
  destruct (HC p Hp) as (t & Ht & Hpt). rewrite as_array_S.
  rewrite (bind_Ret _ _ _ _ _ (deref_Some _ _ _ Hpt)).
  apply bind_Halt, bind_Halt. by apply IH.
Qed.

Lemma as_block_on_cycle s C fuel :
  reference_cycle s C -> forall p, p ∈ C -> as_block fuel p s = Halt out_of_fuel.
Proof.
  intros HC. induction fuel as [|fuel IH]; intros p Hp; [done|].
  destruct (HC p Hp) as (t & Ht & Hpt). cbn [as_block].
  rewrite (bind_Ret _ _ _ _ _ (deref_Some _ _ _ Hpt)).
  apply bind_Halt, bind_Halt. by apply IH.
Qed.

(** ** as_array by variant, and through one Reference *)

Lemma as_array_Array fuel s this a x :
  entries s !! this = Some (Array a) -> arrays s !! a = Some x ->
  as_array (S fuel) this s = Ret a s.
Proof.
  intros H Ha. rewrite as_array_S.
  rewrite (bind_Ret _ _ _ _ _ (deref_Some _ _ _ H)).
  unfold bind at 1. cbn.
  rewrite (bind_Ret _ _ _ _ _ (fetch_eq _ _ _ H)).
  by eapply get_Array_eq.
Qed.

Lemma as_array_Empty fuel s this :
  entries s !! this = Some Empty ->
  as_array (S fuel) this s =
  Ret (fresh (dom (arrays s)))
      (set_entries <[this := Array (fresh (dom (arrays s)))]>
         (set_arrays <[fresh (dom (arrays s)) := mkArray (Some this) [] 0]> s)).
Proof.
  intros H. rewrite as_array_S.
  rewrite (bind_Ret _ _ _ _ _ (deref_Some _ _ _ H)).
  unfold bind at 1. cbn -[fresh].
  erewrite (bind_Ret (fetch this)); last first.
  { apply fetch_eq. cbn. apply lookup_insert_eq. }
  eapply get_Array_eq; cbn -[fresh]; apply lookup_insert_eq.
Qed.

Lemma as_array_illegal fuel s this v :
  entries s !! this = Some v ->
  index v <> tag_Empty -> index v <> tag_Array -> index v <> tag_Reference ->
  as_array (S fuel) this s = Throw (runtime_error "illegal type") s.
Proof.
  intros H He Ho Hr. rewrite as_array_S.
  rewrite (bind_Ret _ _ _ _ _ (deref_Some _ _ _ H)).
  by destruct v.
Qed.

Lemma as_array_const_illegal s this v :
  entries s !! this = Some v -> index v <> tag_Array ->
  as_array_const this s = Throw (runtime_error "illegal type") s.
Proof.
  intros H Hv. unfold as_array_const.
  rewrite (bind_Ret _ _ _ _ _ (deref_Some _ _ _ H)). by rewrite decide_False.
Qed.

Lemma update_one_hop fuel s this target v :
  entries s !! this = Some (Reference target) ->
  entries s !! target = Some v -> index v <> tag_Reference ->
  update (S (S fuel)) this s = Ret tt s.
Proof.
  intros H Ht Hv. cbn [update].
  rewrite (bind_Ret _ _ _ _ _ (deref_Some _ _ _ H)).
  rewrite (bind_Ret _ _ _ _ _ (deref_Some _ _ _ Ht)). by destruct v.
Qed.

Lemma as_array_Reference_to_Array fuel s this target a x :
  entries s !! this = Some (Reference target) ->
  entries s !! target = Some (Array a) -> arrays s !! a = Some x ->
  as_array (S (S (S fuel))) this s = Ret a s.
Proof.
  intros H Ht Ha. rewrite as_array_S.
  rewrite (bind_Ret _ _ _ _ _ (deref_Some _ _ _ H)).
  erewrite bind_Ret; last first.
  { erewrite bind_Ret; [|by eapply as_array_Array].
    by eapply update_one_hop. }
  rewrite (bind_Ret _ _ _ _ _ (fetch_eq _ _ _ H)).
  by eapply get_Array_eq.
Qed.

Lemma as_object_Reference_to_Object fuel s this target o x :
  entries s !! this = Some (Reference target) ->
  entries s !! target = Some (Object o) -> objects s !! o = Some x ->
  as_object (S (S fuel)) this s = Ret o s.
Proof.
  intros H Ht Ho. rewrite (as_object_via_Reference _ _ _ _ H).
  rewrite (bind_Ret _ _ _ _ _ (as_object_Object fuel _ _ _ _ Ht Ho)).
  rewrite (bind_Ret _ _ _ _ _ (fetch_eq _ _ _ H)).
  by eapply get_Object_eq.
Qed.

Lemma as_object_const_Reference_to_Object s this target o x :
  entries s !! this = Some (Reference target) ->
  entries s !! target = Some (Object o) -> objects s !! o = Some x ->
  as_object_const this s = Ret o s.
Proof.
  intros H Ht Ho. unfold as_object_const.
  assert (Entry_type this s = Ret tag_Object s) as Hty.
  { unfold Entry_type. rewrite (bind_Ret _ _ _ _ _ (fetch_eq _ _ _ H)).
    by rewrite (bind_Ret _ _ _ _ _ (deref_Some _ _ _ Ht)). }
  rewrite (bind_Ret _ _ _ _ _ Hty).
  case_decide; [|done]. rewrite (bind_Ret _ _ _ _ _ (fetch_eq _ _ _ H)).
  by eapply get_Object_eq.
Qed.

(** ** No coercion between Object and Array *)

Lemma as_array_on_object fuel s p o :
  (exists v, entries s !! p = Some v /\
             entries s !! (match v with Reference t => t | _ => p end) = Some (Object o)) ->
  as_array (S (S fuel)) p s = Throw (runtime_error "illegal type") s.
Proof.
  intros (v & Hv & Ht). destruct v as [| t | b | o' | a | sc]; try congruence.
  - rewrite as_array_S. rewrite (bind_Ret _ _ _ _ _ (deref_Some _ _ _ Hv)).
    apply bind_Throw, bind_Throw. by apply as_array_illegal with (v := Object o).
  - by apply as_array_illegal with (v := Object o').
Qed.

Lemma as_object_on_array fuel s p a :
  (exists v, entries s !! p = Some v /\
             entries s !! (match v with Reference t => t | _ => p end) = Some (Array a)) ->
  as_object (S (S fuel)) p s = Throw (runtime_error "illegal type") s.
Proof.
  intros (v & Hv & Ht). destruct v as [| t | b | o' | a' | sc]; try congruence.
  - rewrite (as_object_via_Reference _ _ _ _ Hv).
    apply bind_Throw. by apply as_object_illegal with (v := Array a).
  - by apply as_object_illegal with (v := Array a').
Qed.

(** ** EntryObjectDefault::erase, at and size *)



Lemma EntryObjectDefault_at_present s o x k c :
  objects s !! o = Some x -> m_container_ x !! k = Some c ->
  EntryObjectDefault_at o k s = Ret c s.
Proof.
  intros Ho Hk. unfold EntryObjectDefault_at.
  rewrite (bind_Ret _ _ _ _ _ (deref_object_Some _ _ _ Ho)). by rewrite Hk.
Qed.

Lemma EntryObjectDefault_at_absent s o x k :
  objects s !! o = Some x -> m_container_ x !! k = None ->
  EntryObjectDefault_at o k s = Throw out_of_range s.
Proof.
  intros Ho Hk. unfold EntryObjectDefault_at.
  rewrite (bind_Ret _ _ _ _ _ (deref_object_Some _ _ _ Ho)). by rewrite Hk.
Qed.

Lemma EntryObjectDefault_size_eq s o x :
  objects s !! o = Some x -> EntryObjectDefault_size o s = Ret (size (m_container_ x)) s.
Proof.
  intros Ho. unfold EntryObjectDefault_size.
  by rewrite (bind_Ret _ _ _ _ _ (deref_object_Some _ _ _ Ho)).
Qed.

(** ** push_back and pop_back *)

Lemma store_eq (s s' : Store) :
  entries s = entries s' -> objects s = objects s' -> arrays s = arrays s' ->
  creators s = creators s' -> RUNTIME_ERROR_throws s = RUNTIME_ERROR_throws s' ->
  s = s'.
Proof. destruct s, s'. cbn. by intros -> -> -> -> ->. Qed.


Lemma EntryArrayDefault_size_eq s a x :
  arrays s !! a = Some x -> EntryArrayDefault_size a s = Ret (length (a_container_ x)) s.
Proof.
  intros Ha. unfold EntryArrayDefault_size.
  by rewrite (bind_Ret _ _ _ _ _ (deref_array_Some _ _ _ Ha)).
Qed.


(** ** What EntryObject::create returns *)

Lemma schema_of_empty : schema_of "" = "".
Proof. reflexivity. Qed.

Lemma create_not_implemented self request s :
  schema_of request = "http" \/ schema_of request = "https" ->
  EntryObject_create self request s = Halt not_implemented.
Proof.
  intros H. unfold EntryObject_create.
  destruct (String.eqb request "") eqn:Hr.
  - apply String.eqb_eq in Hr as ->. rewrite schema_of_empty in H. by destruct H.
  - by destruct H as [-> | ->].
Qed.

Lemma create_Ret_inv self request s o s' :
  EntryObject_create self request s = Ret o s' ->
  objects s !! o = None /\
  entries s' = entries s /\ arrays s' = arrays s /\
  exists b, objects s' = <[o := mkObject b self ∅]> (objects s) /\
            (b = InMemory /\ schema_of request = "" \/
             b = Plugin (schema_of request) /\ schema_of request ∈ creators s).
Proof.
  pose proof (is_fresh (dom (objects s))) as Hf. apply not_elem_of_dom in Hf.
  destruct (decide (schema_of request = "")) as [H0|H0].
  { rewrite (create_empty_schema _ _ _ H0). intros [= <- <-].
    split; [done|]. split; [done|]. split; [done|]. exists InMemory. eauto. }
  destruct (decide (schema_of request = "http")) as [H1|H1].
  { by rewrite create_not_implemented by eauto. }
  destruct (decide (schema_of request = "https")) as [H2|H2].
  { by rewrite create_not_implemented by eauto. }
  assert (request <> "") as Hr by (by intros ->).
  destruct (decide (schema_of request ∈ creators s)) as [Hin|Hin].
  - rewrite create_registered by done. intros [= <- <-].
    split; [done|]. split; [done|]. split; [done|]. eexists. eauto.
  - by rewrite create_unregistered by done.
Qed.

(** ** Entry::type *)

Lemma Entry_type_eq s p v :
  entries s !! p = Some v ->
  Entry_type p s =
  match v with
  | Reference t =>
      match entries s !! t with
      | Some v' => Ret (index v') s
      | None => Halt undefined_behaviour
      end
  | _ => Ret (index v) s
  end.
Proof.
  intros H. unfold Entry_type. rewrite (bind_Ret _ _ _ _ _ (fetch_eq _ _ _ H)).
  destruct v as [| t | b | o | a | sc];
    try by rewrite (bind_Ret _ _ _ _ _ (deref_Some _ _ _ H)).
  destruct (entries s !! t) as [v'|] eqn:Ht.
  - by rewrite (bind_Ret _ _ _ _ _ (deref_Some _ _ _ Ht)).
  - by rewrite (bind_Halt _ _ _ _ (deref_None _ _ Ht)).
Qed.

(** ** at(path) on a missing key *)

Lemma at_from_missing_key s p pre k rest q s1 o s2 x :
  at_from p pre s = Ret q s1 ->
  as_object_const q s1 = Ret o s2 ->
  objects s2 !! o = Some x -> impl x = InMemory -> m_container_ x !! k = None ->
  at_from p (pre ++ Key k :: rest) s = Throw out_of_range s.
Proof.
  intros Hpre Hobj Ho Hi Hk.
  pose proof (ensures_Ret _ _ _ _ _ (at_from_unchanged pre p s) Hpre) as ->.
  pose proof (ensures_Ret _ _ _ _ _ (as_object_const_unchanged q s1) Hobj) as ->.
  rewrite at_from_app. rewrite (bind_Ret _ _ _ _ _ Hpre). cbn [at_from].
  rewrite (bind_Ret _ _ _ _ _ Hobj). apply bind_Throw.
  unfold at_key. rewrite (bind_Ret _ _ _ _ _ (deref_object_Some _ _ _ Ho)).
  rewrite Hi. by eapply EntryObjectDefault_at_absent.
Qed.

(** ** Entry::as_block *)

Lemma blocks_of_spec s p b : entries s !! p = Some (Block b) -> b ∈ blocks_of s.
Proof.
  unfold blocks_of. revert p b.
  apply (map_fold_weak_ind
           (fun (acc : gset positive) (m : gmap loc Entry) =>
              forall p b, m !! p = Some (Block b) -> b ∈ acc)).
  - intros p b. by rewrite lookup_empty.
  - intros i v m acc Hi IH p b. destruct (decide (i = p)) as [->|Hne].
    + rewrite lookup_insert_eq. intros [= ->]. set_solver.
    + rewrite lookup_insert_ne by done. intros H%IH. destruct v; set_solver.
Qed.

Lemma as_block_Empty fuel s this :
  entries s !! this = Some Empty ->
  as_block (S fuel) this s =
  Ret (fresh (blocks_of s)) (set_entries <[this := Block (fresh (blocks_of s))]> s).
Proof.
  intros H. cbn [as_block].
  rewrite (bind_Ret _ _ _ _ _ (deref_Some _ _ _ H)).
  unfold bind at 1. cbn -[fresh blocks_of].
  erewrite (bind_Ret (fetch this)); last first.
  { apply fetch_eq. cbn -[fresh blocks_of]. apply lookup_insert_eq. }
  unfold get_Block. erewrite bind_Ret; last first.
  { apply deref_Some. cbn -[fresh blocks_of]. apply lookup_insert_eq. }
  done.
Qed.

Lemma as_block_Block fuel s this b :
  entries s !! this = Some (Block b) -> as_block (S fuel) this s = Ret b s.
Proof.
  intros H. cbn [as_block].
  rewrite (bind_Ret _ _ _ _ _ (deref_Some _ _ _ H)).
  unfold bind at 1. cbn.
  rewrite (bind_Ret _ _ _ _ _ (fetch_eq _ _ _ H)).
  unfold get_Block. by rewrite (bind_Ret _ _ _ _ _ (deref_Some _ _ _ H)).
Qed.

Lemma as_block_illegal fuel s this v :
  entries s !! this = Some v ->
  index v <> tag_Empty -> index v <> tag_Block -> index v <> tag_Reference ->
  as_block (S fuel) this s = Throw (runtime_error "illegal type") s.
Proof.
  intros H He Ho Hr. cbn [as_block].
  rewrite (bind_Ret _ _ _ _ _ (deref_Some _ _ _ H)).
  by destruct v.
Qed.

Lemma as_block_on_container fuel s p v' :
  (exists v, entries s !! p = Some v /\
             entries s !! (match v with Reference t => t | _ => p end) = Some v') ->
  index v' = tag_Object \/ index v' = tag_Array ->
  as_block (S (S fuel)) p s = Throw (runtime_error "illegal type") s.
Proof.
  intros (v & Hv & Ht) Hc.
  assert (as_block (S fuel) (match v with Reference t => t | _ => p end) s =
          Throw (runtime_error "illegal type") s) as Htarget.
  { apply as_block_illegal with (v := v'); [done | ..]; destruct Hc; congruence. }
  destruct v as [| t | b | o' | a | sc];
    try (apply as_block_illegal with (v := v'); [done | ..]; destruct Hc; congruence).
  cbn [as_block]. rewrite (bind_Ret _ _ _ _ _ (deref_Some _ _ _ Hv)).
  apply bind_Throw, bind_Throw. exact Htarget.
Qed.

(** ** insert(key), then size and at(key) *)

Lemma EntryObjectDefault_insert_then_at s o x k c s' :
  objects s !! o = Some x ->
  EntryObjectDefault_insert o k s = Ret c s' ->
  EntryObjectDefault_at o k s' = Ret c s' /\
  EntryObjectDefault_size o s' =
    Ret (if m_container_ x !! k is Some _ then size (m_container_ x)
         else S (size (m_container_ x))) s'.
Proof.
  intros Ho. destruct (m_container_ x !! k) as [c'|] eqn:Hk.
  - rewrite (EntryObjectDefault_insert_old _ _ _ _ _ Ho Hk). intros [= <- <-].
    split; [by eapply EntryObjectDefault_at_present | by apply EntryObjectDefault_size_eq].
  - rewrite (EntryObjectDefault_insert_new _ _ _ _ Ho Hk). intros [= <- <-].
    split.
    + eapply EntryObjectDefault_at_present.
      * cbn -[fresh]. apply lookup_insert_eq.
      * cbn -[fresh]. apply lookup_insert_eq.
    + erewrite EntryObjectDefault_size_eq; last by (cbn -[fresh]; apply lookup_insert_eq).
      cbn -[fresh]. by rewrite map_size_insert_None.
Qed.

(** ** erase(key) *)



Lemma EntryObject_insert_extends fuel o path s :
  ensures extends (EntryObject_insert fuel o path) s.
Proof.
  unfold EntryObject_insert.
  apply (ensures_bind extends);
    [apply ensures_unchanged, deref_object_unchanged; apply _ |].
  intros x s1 _. destruct (m_self_ x); [apply insert_from_extends | done].
Qed.

(** ** Deciding the hypotheses on a given store *)

Lemma no_references_check s :
  bool_decide (map_Forall (fun _ v => index v <> tag_Reference) (entries s)) = true ->
  no_references s.
Proof.
  intros H%bool_decide_eq_true_1 q t Hq. by apply (H q (Reference t)).
Qed.

Lemma reference_cycle_check s (C : gset loc) :
  forallb (fun p => match entries s !! p with
                    | Some (Reference t) => bool_decide (t ∈ C)
                    | _ => false
                    end) (elements C) = true ->
  reference_cycle s C.
Proof.
  intros H p Hp. rewrite forallb_forall in H.
  specialize (H p). rewrite <- list_elem_of_In, elem_of_elements in H.
  specialize (H Hp).
  destruct (entries s !! p) as [[| t | | | |]|]; try done.
  exists t. split; [by eapply bool_decide_eq_true_1 | done].
Qed.

(** ** The buffer of a vector *)

Lemma lookup_zip_map (ks : list loc) (vs : list Entry) (m : gmap loc Entry) i c v :
  NoDup ks -> length ks = length vs ->
  ks !! i = Some c -> vs !! i = Some v ->
  (list_to_map (zip ks vs) ∪ m) !! c = Some v.
Proof.
  intros Hnd Hlen Hc Hv. apply lookup_union_Some_l, elem_of_list_to_map_1.
  - rewrite fst_zip by lia. done.
  - apply list_elem_of_lookup. exists i.
    rewrite lookup_zip_with, Hc, Hv. done.
Qed.

Lemma lookup_zip_map_other (ks : list loc) (vs : list Entry) (m : gmap loc Entry) q :
  length ks = length vs -> q ∉ ks ->
  (list_to_map (zip ks vs) ∪ m) !! q = m !! q.
Proof.
  intros Hlen Hq. apply lookup_union_r, not_elem_of_list_to_map_1.
  rewrite fst_zip by lia. done.
Qed.

Lemma values_zip_map (ks : list loc) (vs : list Entry) (m : gmap loc Entry) :
  NoDup ks -> length ks = length vs ->
  (fun c => (list_to_map (zip ks vs) ∪ m) !! c) <$> ks = Some <$> vs.
Proof.
  intros Hnd Hlen. apply list_eq. intros i. rewrite !list_lookup_fmap.
  destruct (ks !! i) as [c|] eqn:Hc.
  - destruct (lookup_lt_is_Some_2 vs i) as [v Hv].
    { rewrite <- Hlen. by eapply lookup_lt_Some. }
    rewrite Hv. cbn. f_equal. by eapply lookup_zip_map.
  - apply lookup_ge_None in Hc. rewrite (proj2 (lookup_ge_None vs i)) by lia. done.
Qed.

Lemma values_of_mapM s (cs : list loc) (vs : list Entry) :
  mapM (fun c => entries s !! c) cs = Some vs -> values s cs = Some <$> vs.
Proof.
  intros H%mapM_Some. unfold values.
  induction H as [|c v cs vs Hc _ IH]; [done|]. cbn. by rewrite Hc, IH.
Qed.

Lemma values_frame s s' (cs : list loc) :
  (forall c, c ∈ cs -> entries s' !! c = entries s !! c) ->
  values s' cs = values s cs.
Proof.
  intros H. unfold values. apply list_eq. intros i. rewrite !list_lookup_fmap.
  destruct (cs !! i) as [c|] eqn:Hc; [|done]. cbn. f_equal. apply H.
  by eapply list_elem_of_lookup_2.
Qed.

Lemma values_length s cs : length (values s cs) = length cs.
Proof. unfold values. by rewrite length_fmap. Qed.


Lemma values_app s cs cs' : values s (cs ++ cs') = values s cs ++ values s cs'.
Proof. unfold values. by rewrite fmap_app. Qed.

(** ** append_default *)

(** With room in the buffer the new entries are made behind the last
    element, and nothing else is touched. *)
Lemma append_default_in_place V s a x k :
  (length (a_container_ x) + k <= a_capacity x)%nat ->
  append_default V a x k s =
  Ret tt (set_arrays
            <[a := mkArray (a_self_ x)
                     (a_container_ x ++ fresh_list k (dom (entries s))) (a_capacity x)]>
            (set_entries
               (fun m => list_to_map (zip (fresh_list k (dom (entries s)))
                                          (replicate k Empty)) ∪ m) s)).
Proof. intros H. unfold append_default. by rewrite decide_True. Qed.

Lemma append_default_too_long V s a x k :
  (a_capacity x < length (a_container_ x) + k)%nat ->
  (max_size V < Z.of_nat (length (a_container_ x) + k))%Z ->
  append_default V a x k s = Throw length_error s.
Proof.
  intros Hcap Hmax. unfold append_default.
  rewrite decide_False by lia. by rewrite decide_True.
Qed.

(** What [append_default] leaves, in both cases: the array has the values
    it had, in the same order, followed by [k] Empty entries that were no
    entries before; its elements are again distinct entries; with room the
    elements are the same entries as before, without none of them is an
    entry any more. *)
Lemma append_default_spec V s a x k :
  elements_allocated s x ->
  (Z.of_nat (length (a_container_ x) + k) <= max_size V)%Z ->
  exists s' x',
    append_default V a x k s = Ret tt s' /\
    arrays s' = <[a := x']> (arrays s) /\ objects s' = objects s /\
    a_self_ x' = a_self_ x /\
    elements_allocated s' x' /\
    (length (a_container_ x') <= a_capacity x')%nat /\
    values s' (a_container_ x') = values s (a_container_ x) ++ replicate k (Some Empty) /\
    Forall (fun c => entries s !! c = None)
           (drop (length (a_container_ x)) (a_container_ x')) /\
    (forall q, q ∉ a_container_ x -> q ∉ a_container_ x' ->
               entries s' !! q = entries s !! q) /\
    ((length (a_container_ x) + k <= a_capacity x)%nat ->
     take (length (a_container_ x)) (a_container_ x') = a_container_ x /\
     a_capacity x' = a_capacity x) /\
    ((a_capacity x < length (a_container_ x) + k)%nat ->
     Forall (fun c => entries s' !! c = None) (a_container_ x) /\
     Forall (fun c => entries s !! c = None) (a_container_ x')).
Proof.
  intros [Hnd Hall] Hmax.
  set (cs := a_container_ x) in *. set (n := length cs) in *.
  assert (forall c, c ∈ cs -> c ∈ dom (entries s)) as Hdom.
  { intros c Hc. apply elem_of_dom. by eapply Forall_forall in Hall. }
  destruct (decide (n + k <= a_capacity x)%nat) as [Hroom|Hfull].
  - (* in place *)
    set (new := fresh_list k (dom (entries s))).
    assert (length new = k) as Hlen by apply length_fresh_list.
    assert (NoDup new) as Hndn by apply NoDup_fresh_list.
    assert (forall c, c ∈ new -> c ∉ dom (entries s)) as Hfresh.
    { intros c. apply fresh_list_is_fresh. }
    exists (set_arrays
              <[a := mkArray (a_self_ x) (cs ++ new) (a_capacity x)]>
              (set_entries
                 (fun m => list_to_map (zip new (replicate k Empty)) ∪ m) s)),
           (mkArray (a_self_ x) (cs ++ new) (a_capacity x)).
    split; [by apply append_default_in_place|].
    cbn [arrays entries objects set_arrays set_entries a_self_ a_container_ a_capacity].
    assert (forall c, c ∈ cs -> c ∉ new) as Hdisj.
    { intros c Hc Hc'. by eapply Hfresh, Hdom. }
    split_and!; try done.
    + split; cbn.
      * apply NoDup_app. by split_and!.
      * apply Forall_app. split.
        -- apply Forall_forall. intros c Hc.
           rewrite lookup_zip_map_other; [by eapply Forall_forall in Hall | | by apply Hdisj].
           by rewrite length_replicate.
        -- apply Forall_forall. intros c [i Hi]%list_elem_of_lookup.
           erewrite lookup_zip_map; [done | done | by rewrite length_replicate | done |].
           apply lookup_replicate_2. rewrite <- Hlen. by eapply lookup_lt_Some.
    + rewrite length_app. lia.
    + rewrite values_app. f_equal.
      * apply values_frame. intros c Hc. cbn.
        apply lookup_zip_map_other; [by rewrite length_replicate | by apply Hdisj].
      * unfold values. cbn. rewrite values_zip_map; [| done | by rewrite length_replicate].
        by rewrite fmap_replicate.
    + unfold n. rewrite drop_app_length. apply Forall_forall. intros c Hc.
      by apply not_elem_of_dom, Hfresh.
    + intros q _ Hq. apply lookup_zip_map_other; [by rewrite length_replicate|].
      intros Hq'. apply Hq. apply elem_of_app. by right.
    + intros _. unfold n. by rewrite take_app_length.
    + lia.
  - (* a new buffer *)
    destruct (mapM_is_Some_2 (fun c => entries s !! c) cs Hall) as [vs Hvs].
    pose proof (length_mapM _ _ _ Hvs) as Hlvs.
    set (buf := fresh_list (n + k) (dom (entries s))).
    assert (length buf = (n + k)%nat) as Hlen by apply length_fresh_list.
    assert (NoDup buf) as Hndb by apply NoDup_fresh_list.
    assert (forall c, c ∈ buf -> c ∉ dom (entries s)) as Hfresh.
    { intros c. apply fresh_list_is_fresh. }
    assert (length buf = length (vs ++ replicate k Empty)) as Hlen'.
    { rewrite length_app, length_replicate. fold n in Hlvs. lia. }
    exists (set_arrays
              <[a := mkArray (a_self_ x) buf (Nat.max (n + k) (new_capacity V n k))]>
              (set_entries
                 (fun m => list_to_map (zip buf (vs ++ replicate k Empty))
                             ∪ foldr delete m cs) s)),
           (mkArray (a_self_ x) buf (Nat.max (n + k) (new_capacity V n k))).
    split.
    { unfold append_default. fold cs n.
      rewrite decide_False by lia. rewrite decide_False by lia.
      by rewrite Hvs. }
    cbn [arrays entries objects set_arrays set_entries a_self_ a_container_ a_capacity].
    assert ((fun c => (list_to_map (zip buf (vs ++ replicate k Empty))
                         ∪ foldr delete (entries s) cs) !! c) <$> buf =
            values s cs ++ replicate k (Some Empty)) as Hvals.
    { rewrite values_zip_map by done.
      by rewrite fmap_app, fmap_replicate, (values_of_mapM _ _ _ Hvs). }
    split_and!; try done.
    + split; cbn; [done|].
      apply Forall_forall. intros c [i Hi]%list_elem_of_lookup.
      destruct (lookup_lt_is_Some_2 (vs ++ replicate k Empty) i) as [v Hv].
      { rewrite <- Hlen'. by eapply lookup_lt_Some. }
      by erewrite lookup_zip_map.
    + lia.
    + apply Forall_drop, Forall_forall. intros c Hc.
      by apply not_elem_of_dom, Hfresh.
    + intros q Hq Hq'. rewrite lookup_zip_map_other by done.
      by apply lookup_foldr_delete_not_elem_of.
    + intros _. split.
      * apply Forall_forall. intros c Hc. apply lookup_union_None. split.
        -- apply not_elem_of_list_to_map_1. rewrite fst_zip by lia.
           intros Hc'. by eapply Hfresh, Hdom.
        -- by apply lookup_foldr_delete.
      * apply Forall_forall. intros c Hc. by apply not_elem_of_dom, Hfresh.
Qed.

(** ** push_back *)


(** ** pop_back on an array of distinct entries *)


(** ** n times push_back, then n times pop_back *)






(** ** push_back, then size and at *)



(** ** Entries that hold no pointer *)

Lemma release_owns_nothing fuel v s :
  owns_nothing v -> release (S fuel) v s = Ret tt s.
Proof.
  intros Hv. cbn [release]. unfold bind, get.
  case_decide; [done|]. by destruct v.
Qed.

Lemma destroy_all_leaves fuel :
  forall cs s,
    NoDup cs ->
    Forall (fun c => exists v, entries s !! c = Some v /\ owns_nothing v) cs ->
    destroy_all_with (release (S fuel)) cs s =
    Ret tt (set_entries (fun m => foldr delete m cs) s).
Proof.
  induction cs as [|c cs IH]; intros s Hnd Hall.
  { by destruct s. }
  apply NoDup_cons in Hnd as [Hc Hnd].
  apply Forall_cons in Hall as [(v & Hv & Hleaf) Hall].
  cbn [destroy_all_with].
  erewrite bind_Ret; last first.
  { unfold destroy_with. rewrite Hv. by apply release_owns_nothing. }
  rewrite IH; [| done |].
  - f_equal. unfold set_entries. cbn. f_equal. symmetry. apply delete_foldr_delete.
  - apply Forall_forall. intros q Hq.
    destruct (proj1 (Forall_forall _ _) Hall q Hq) as (w & Hw & Hwl).
    exists w. split; [|done]. cbn. rewrite lookup_delete_ne; [done|].
    by intros ->.
Qed.

(** ** resize *)

Lemma EntryArrayDefault_resize_grow V fuel s a x num :
  arrays s !! a = Some x -> (Z.of_nat (length (a_container_ x)) < num)%Z ->
  EntryArrayDefault_resize V fuel a num s =
  append_default V a x (Z.to_nat num - length (a_container_ x)) s.
Proof.
  intros Ha Hnum. unfold EntryArrayDefault_resize.
  rewrite (bind_Ret _ _ _ _ _ (deref_array_Some _ _ _ Ha)).
  by rewrite decide_False by lia.
Qed.

Lemma EntryArrayDefault_resize_shrink V fuel s a x num :
  arrays s !! a = Some x -> (num <= Z.of_nat (length (a_container_ x)))%Z ->
  NoDup (a_container_ x) ->
  Forall (fun c => exists v, entries s !! c = Some v /\ owns_nothing v)
         (drop (Z.to_nat num) (a_container_ x)) ->
  EntryArrayDefault_resize V (S fuel) a num s =
  Ret tt (set_arrays
            <[a := mkArray (a_self_ x) (take (Z.to_nat num) (a_container_ x))
                     (a_capacity x)]>
            (set_entries
               (fun m => foldr delete m (drop (Z.to_nat num) (a_container_ x))) s)).
Proof.
  intros Ha Hnum Hnd Hall. unfold EntryArrayDefault_resize.
  rewrite (bind_Ret _ _ _ _ _ (deref_array_Some _ _ _ Ha)).
  rewrite decide_True by done.
  erewrite bind_Ret; [reflexivity|].
  apply destroy_all_leaves; [|done].
  rewrite <- (take_drop (Z.to_nat num)) in Hnd. by apply NoDup_app in Hnd as (_ & _ & ?).
Qed.

(** [resize] to at least the size: the values stay, in order, and Empty
    entries follow them up to [num]. *)
Lemma EntryArrayDefault_resize_grow_spec V fuel s a x num :
  arrays s !! a = Some x -> elements_allocated s x ->
  (length (a_container_ x) <= a_capacity x)%nat ->
  (Z.of_nat (length (a_container_ x)) <= num <= max_size V)%Z ->
  exists s' x',
    EntryArrayDefault_resize V (S fuel) a num s = Ret tt s' /\
    arrays s' !! a = Some x' /\ a_self_ x' = a_self_ x /\
    elements_allocated s' x' /\
    Z.of_nat (length (a_container_ x')) = num /\
    values s' (a_container_ x') =
      values s (a_container_ x)
      ++ replicate (Z.to_nat num - length (a_container_ x)) (Some Empty) /\
    ((num <= Z.of_nat (a_capacity x))%Z ->
     take (length (a_container_ x)) (a_container_ x') = a_container_ x) /\
    ((Z.of_nat (a_capacity x) < num)%Z ->
     Forall (fun c => entries s' !! c = None) (a_container_ x)).
Proof.
  intros Ha Hwf Hcap Hnum.
  destruct (decide (num = Z.of_nat (length (a_container_ x)))) as [->|Hne].
  - (* nothing to do *)
    exists (set_arrays <[a := mkArray (a_self_ x) (a_container_ x) (a_capacity x)]> s), x.
    rewrite Nat2Z.id, Nat.sub_diag, app_nil_r.
    assert (set_arrays <[a := mkArray (a_self_ x) (a_container_ x) (a_capacity x)]> s = s)
      as Hs.
    { apply store_eq; try done. cbn. apply insert_id. by destruct x. }
    split.
    { rewrite (EntryArrayDefault_resize_shrink V fuel s a x _ Ha).
      - rewrite Nat2Z.id, drop_all. rewrite take_ge by lia. reflexivity.
      - lia.
      - apply Hwf.
      - rewrite Nat2Z.id, drop_all. constructor. }
    rewrite Hs. split_and!; try done.
    + intros _. by rewrite take_ge.
    + intros ?. lia.
  - destruct (append_default_spec V s a x (Z.to_nat num - length (a_container_ x)) Hwf)
      as (s' & x' & Hrun & Harr & _ & Hself & Hwf' & _ & Hvals & _ & _ & Hroom & Hfull);
      [lia|].
    exists s', x'.
    rewrite (EntryArrayDefault_resize_grow V _ s a x num Ha) by lia.
    split; [done|]. split; [rewrite Harr; apply lookup_insert_eq|].
    split; [done|]. split; [done|]. split.
    { rewrite <- (values_length s'), Hvals, length_app, values_length, length_replicate.
      lia. }
    split; [done|]. split.
    + intros ?. apply Hroom. lia.
    + intros ?. apply Hfull. lia.
Qed.

Lemma EntryArrayDefault_resize_length_error V fuel s a x num :
  arrays s !! a = Some x ->
  (length (a_container_ x) <= a_capacity x)%nat ->
  (Z.of_nat (a_capacity x) <= max_size V < num)%Z ->
  EntryArrayDefault_resize V fuel a num s = Throw length_error s.
Proof.
  intros Ha Hlen Hmax.
  rewrite (EntryArrayDefault_resize_grow V fuel s a x num Ha) by lia.
  apply append_default_too_long; lia.
Qed.

Lemma EntryArrayDefault_resize_shrink_spec V fuel s a x num :
  arrays s !! a = Some x -> elements_allocated s x ->
  (0 <= num <= Z.of_nat (length (a_container_ x)))%Z ->
  Forall (fun c => exists v, entries s !! c = Some v /\ owns_nothing v)
         (drop (Z.to_nat num) (a_container_ x)) ->
  exists s',
    EntryArrayDefault_resize V (S fuel) a num s = Ret tt s' /\
    arrays s' !! a =
      Some (mkArray (a_self_ x) (take (Z.to_nat num) (a_container_ x)) (a_capacity x)) /\
    Forall (fun c => entries s' !! c = None) (drop (Z.to_nat num) (a_container_ x)) /\
    values s' (take (Z.to_nat num) (a_container_ x)) =
      values s (take (Z.to_nat num) (a_container_ x)).
Proof.
  intros Ha [Hnd Hall] Hnum Hleaf.
  eexists. split; [apply EntryArrayDefault_resize_shrink; [done | lia | done | done]|].
  cbn [arrays entries set_arrays set_entries].
  split; [apply lookup_insert_eq|]. split.
  - apply Forall_forall. intros c Hc. by apply lookup_foldr_delete.
  - apply values_frame. intros c Hc. cbn.
    apply lookup_foldr_delete_not_elem_of. intros Hc'.
    rewrite <- (take_drop (Z.to_nat num) (a_container_ x)) in Hnd.
    apply NoDup_app in Hnd as (_ & Hdisj & _). by eapply Hdisj.
Qed.

(** ** An Index segment behind a Reference *)

Lemma at_from_index_through_reference s p pre i rest q t :
  at_from p pre s = Ret q s -> entries s !! q = Some (Reference t) ->
  at_from p (pre ++ Index i :: rest) s = Throw (runtime_error "illegal type") s.
Proof.
  intros Hpre Hq. rewrite at_from_app.
  rewrite (bind_Ret _ _ _ _ _ Hpre). cbn [at_from].
  apply bind_Throw. by apply as_array_const_illegal with (v := Reference t).
Qed.

(** ** What EntryObject::create returns, by scheme *)

Lemma create_Ret_self self request s o s' :
  EntryObject_create self request s = Ret o s' ->
  (exists x, objects s' !! o = Some x /\ m_self_ x = self /\
             (schema_of request = "" /\ impl x = InMemory \/
              schema_of request ∈ creators s /\ impl x = Plugin (schema_of request))) /\
  (schema_of request = "" ->
   objects s !! o = None /\ s' = set_objects <[o := mkObject InMemory self ∅]> s).
Proof.
  intros Hrun. split.
  - destruct (create_Ret_inv _ _ _ _ _ Hrun) as (_ & _ & _ & b & Hobj & Hb).
    exists (mkObject b self ∅). rewrite Hobj, lookup_insert_eq.
    split; [done|]. split; [done|]. cbn. destruct Hb as [[-> ?]|[-> ?]]; eauto.
  - intros H0. rewrite (create_empty_schema _ _ _ H0) in Hrun. injection Hrun as <- <-.
    split; [|done]. apply not_elem_of_dom, is_fresh.
Qed.

(** ** What is left of a store *)

#[local] Instance shrinks_refl : Reflexive shrinks.
Proof. intros s. by split_and!. Qed.

#[local] Instance shrinks_trans : Transitive shrinks.
Proof.
  intros s1 s2 s3 (He & Ho & Ha & Hc & Hr) (He' & Ho' & Ha' & Hc' & Hr').
  split_and!; try (by etrans); congruence.
Qed.






(** ** The end of an entry, and of the entries that go with it *)



(** ** release *)


(** ** Entry::clear *)





Lemma elements_allocated_check s x :
  bool_decide (elements_allocated s x) = true -> elements_allocated s x.
Proof. apply bool_decide_eq_true_1. Qed.

End db_facts.

(* ===================================================================== *)
(** * Facts about namespace sp                                            *)
(* ===================================================================== *)

Module sp_facts.
Import sp.

Lemma bind_Ret_sp {A B} (m : St A) (k : A -> St B) this a this' :
  m this = Ret a this' -> bind m k this = k a this'.
Proof. intros H. unfold bind. by rewrite H. Qed.

(** ** insert(key) *)

Lemma insert_present m k c :
  m !! k = Some c -> insert k (m_object m) = Ret (to_key k) (m_object m).
Proof. intros H. unfold insert. by rewrite H. Qed.

Lemma insert_absent m k :
  m !! k = None ->
  insert k (m_object m) = Ret (to_key k) (m_object (<[k := m_null]> m)).
Proof. intros H. unfold insert. by rewrite H. Qed.

Lemma insert_null k :
  insert k m_null = Ret (to_key k) (m_object {[k := m_null]}).
Proof. reflexivity. Qed.

Lemma insert_again k this p this' :
  insert k this = Ret p this' -> insert k this' = Ret p this'.
Proof.
  destruct this as [| v | v | v | l | m]; try (by intros [= <- <-]).
  - rewrite insert_null. intros [= <- <-].
    eapply insert_present. apply lookup_singleton_eq.
  - destruct (m !! k) as [c|] eqn:Hk.
    + rewrite (insert_present _ _ _ Hk). intros [= <- <-]. by eapply insert_present.
    + rewrite (insert_absent _ _ Hk). intros [= <- <-].
      eapply insert_present. apply lookup_insert_eq.
Qed.

(** The child under [k] after [insert k]: the old one if there was one. *)
Lemma insert_keeps_child m k c p this' :
  m !! k = Some c -> insert k (m_object m) = Ret p this' ->
  child this' p = Some c /\ this' = m_object m.
Proof. intros H. rewrite (insert_present _ _ _ H). by intros [= <- <-]. Qed.

(** ** The leaf setters *)

Lemma leaf_type_lt t : is_leaf_type t = true <-> (Type_index t < Type_index Array)%nat.
Proof. destruct t; cbn; split; (done || lia). Qed.

Lemma set_single_leaf v this :
  is_leaf_type (type this) = true -> set_single v this = Ret tt (m_single v).
Proof. intros H%leaf_type_lt. unfold set_single. by rewrite decide_True. Qed.

Lemma set_single_container v this :
  is_leaf_type (type this) = false ->
  set_single v this = Throw (runtime_error "Set value failed!") this.
Proof.
  intros H. unfold set_single. rewrite decide_False; [done|].
  intros H'%leaf_type_lt. congruence.
Qed.

Lemma set_tensor_leaf v this :
  is_leaf_type (type this) = true -> set_tensor v this = Ret tt (m_tensor v).
Proof. intros H%leaf_type_lt. unfold set_tensor. by rewrite decide_True. Qed.


Lemma set_block_leaf v this :
  is_leaf_type (type this) = true -> set_block v this = Ret tt (m_block v).
Proof. intros H%leaf_type_lt. unfold set_block. by rewrite decide_True. Qed.


(** ** operator[](int) *)

Lemma subscript_negative_array idx l :
  (idx < 0)%Z ->
  subscript idx (m_array l) = Ret (to_index (length l)) (m_array (l ++ [m_null])).
Proof. intros H. unfold subscript. by rewrite decide_True. Qed.

Lemma subscript_negative_null idx :
  (idx < 0)%Z -> subscript idx m_null = Ret (to_index 0) (m_array [m_null]).
Proof. intros H. unfold subscript. by rewrite decide_True. Qed.

Lemma subscript_not_array idx this :
  (0 <= idx)%Z -> type this <> Array ->
  subscript idx this = Throw out_of_range this.
Proof.
  intros H Ht. unfold subscript. rewrite decide_False by lia.
  by destruct this.
Qed.

Lemma subscript_in_range idx l :
  (0 <= idx < Z.of_nat (length l))%Z -> (idx < 2 ^ 31)%Z ->
  subscript idx (m_array l) = Ret (to_index (Z.to_nat idx)) (m_array l).
Proof.
  intros H Hint. unfold subscript. rewrite decide_False by lia.
  unfold bind, at_. rewrite Z.mod_small by lia. by rewrite decide_True by lia.
Qed.

(** ** has_a and has_attribute *)

Lemma find_eq key this :
  find key this =
  Ret (match child this (to_key key) with Some _ => to_key key | None => null_iterator end)
      this.
Proof. destruct this as [| v | v | v | l | m]; cbn; try done. by destruct (m !! key). Qed.

(** [has_a] answers [true] exactly when there is no child under the key. *)
Lemma has_a_eq key this :
  has_a key this =
  Ret (match child this (to_key key) with Some _ => false | None => true end) this.
Proof.
  unfold has_a, bind. rewrite find_eq. by destruct (child this (to_key key)).
Qed.

Lemma has_attribute_eq name this :
  has_attribute name this =
  Ret (match child this (to_key ("@" +:+ name)) with Some _ => false | None => true end)
      this.
Proof.
  unfold has_attribute, bind. rewrite find_eq.
  by destruct (child this (to_key ("@" +:+ name))).
Qed.

(** ** Setters and getters *)

Lemma get_single_eq this :
  get_single this =
  match this with
  | m_single v => Ret v this
  | _ => Throw (runtime_error "This is not block!") this
  end.
Proof. by destruct this. Qed.

Lemma set_then_get_single v this :
  is_leaf_type (type this) = true ->
  (_ <- set_single v ;; get_single) this = Ret v (m_single v).
Proof. intros H. unfold bind. by rewrite (set_single_leaf _ _ H). Qed.

Lemma set_then_get_tensor v this :
  is_leaf_type (type this) = true ->
  (_ <- set_tensor v ;; get_tensor) this = Ret v (m_tensor v).
Proof. intros H. unfold bind. by rewrite (set_tensor_leaf _ _ H). Qed.

Lemma set_then_get_block v this :
  is_leaf_type (type this) = true ->
  (_ <- set_block v ;; get_block) this = Ret v (m_block v).
Proof. intros H. unfold bind. by rewrite (set_block_leaf _ _ H). Qed.

(** ** insert, find, at and erase by key *)

Lemma insert_not_object k this :
  type this <> Null -> type this <> Object ->
  insert k this = Ret null_iterator this.
Proof. by destruct this. Qed.

Lemma insert_object_Ret k this :
  type this = Null \/ type this = Object ->
  exists m', insert k this = Ret (to_key k) (m_object m') /\ is_Some (m' !! k).
Proof.
  destruct this as [| v | v | v | l | m]; intros [H|H]; try done.
  - exists {[k := m_null]}. split; [done|]. rewrite lookup_singleton_eq. eauto.
  - destruct (m !! k) as [c|] eqn:Hk.
    + exists m. rewrite (insert_present _ _ _ Hk), Hk. eauto.
    + exists (<[k := m_null]> m). rewrite (insert_absent _ _ Hk), lookup_insert_eq. eauto.
Qed.

Lemma find_present m k c :
  m !! k = Some c -> find k (m_object m) = Ret (to_key k) (m_object m).
Proof. intros H. unfold find. by rewrite H. Qed.

Lemma find_absent m k :
  m !! k = None -> find k (m_object m) = Ret null_iterator (m_object m).
Proof. intros H. unfold find. by rewrite H. Qed.

Lemma at_by_key_present m k c :
  m !! k = Some c -> at_by_key k (m_object m) = Ret (to_key k) (m_object m).
Proof. intros H. unfold at_by_key, bind. by rewrite (find_present _ _ _ H). Qed.

Lemma at_by_key_absent m k :
  m !! k = None -> at_by_key k (m_object m) = Throw out_of_range (m_object m).
Proof. intros H. unfold at_by_key, bind. by rewrite (find_absent _ _ H). Qed.

Lemma erase_present m k c :
  m !! k = Some c -> erase k (m_object m) = Ret c (m_object (delete k m)).
Proof. intros H. unfold erase. by rewrite H. Qed.

Lemma erase_absent m k :
  m !! k = None -> erase k (m_object m) = Ret m_null (m_object m).
Proof. intros H. unfold erase. by rewrite H. Qed.

Lemma erase_not_object k this :
  type this <> Object -> erase k this = Ret m_null this.
Proof. by destruct this. Qed.

(** ** insert(key, other) *)

Lemma insert_value_eq k other this m1 tmp :
  insert k this = Ret (to_key k) (m_object m1) -> is_Some (m1 !! k) ->
  copy_of other (m_object m1) = Ret tmp (m_object m1) ->
  insert_value k other this = Ret (to_key k) (m_object (<[k := tmp]> m1)).
Proof.
  intros Hins [c Hc] Hcopy. unfold insert_value.
  rewrite (bind_Ret_sp _ _ _ _ _ Hins), (bind_Ret_sp _ _ _ _ _ Hcopy).
  unfold bind, at_child, assign. by rewrite Hc.
Qed.

Lemma insert_value_object k v m :
  insert_value k (elsewhere v) (m_object m) = Ret (to_key k) (m_object (<[k := v]> m)).
Proof.
  destruct (m !! k) as [c|] eqn:Hk.
  - by rewrite (insert_value_eq k _ _ m v (insert_present _ _ _ Hk)); eauto.
  - rewrite (insert_value_eq k _ _ (<[k := m_null]> m) v (insert_absent _ _ Hk)).
    + by rewrite insert_insert_eq.
    + rewrite lookup_insert_eq. eauto.
    + done.
Qed.

Lemma insert_value_itself k m :
  insert_value k (within []) (m_object m) =
  Ret (to_key k)
      (m_object (if m !! k is Some _ then <[k := m_object m]> m
                 else <[k := m_object (<[k := m_null]> m)]> m)).
Proof.
  destruct (m !! k) as [c|] eqn:Hk.
  - by rewrite (insert_value_eq k _ _ m (m_object m) (insert_present _ _ _ Hk)); eauto.
  - rewrite (insert_value_eq k _ _ (<[k := m_null]> m) (m_object (<[k := m_null]> m))
               (insert_absent _ _ Hk)).
    + by rewrite insert_insert_eq.
    + rewrite lookup_insert_eq. eauto.
    + done.
Qed.

Lemma insert_value_itself_null k :
  insert_value k (within []) m_null =
  Ret (to_key k) (m_object {[k := m_object {[k := m_null]}]}).
Proof.
  rewrite (insert_value_eq k _ _ {[k := m_null]} (m_object {[k := m_null]}) (insert_null k)).
  - by rewrite insert_singleton_eq.
  - rewrite lookup_singleton_eq. eauto.
  - done.
Qed.

Lemma insert_value_not_object k other this :
  type this <> Null -> type this <> Object ->
  insert_value k other this = Halt undefined_behaviour.
Proof.
  intros H1 H2. unfold insert_value.
  rewrite (bind_Ret_sp _ _ _ _ _ (insert_not_object _ _ H1 H2)).
  unfold bind. destruct (copy_of other this) as [tmp this'|e this'|h] eqn:Hcopy.
  - assert (this' = this) as ->.
    { unfold copy_of in Hcopy. destruct other as [v|path]; [congruence|].
      destruct (descend this path); congruence. }
    unfold at_child. by destruct this.
  - unfold copy_of in Hcopy. destruct other as [v|path]; [done|].
    by destruct (descend this path).
  - unfold copy_of in Hcopy. destruct other as [v|path]; [done|].
    destruct (descend this path); congruence.
Qed.

(** ** Attributes *)

Lemma set_attribute_raw_leaf name v m :
  (forall c, m !! ("@" +:+ name) = Some c -> is_leaf_type (type c) = true) ->
  set_attribute_raw name v (m_object m) =
  Ret tt (m_object (<["@" +:+ name := m_single v]> m)).
Proof.
  intros Hleaf. unfold set_attribute_raw.
  destruct (m !! ("@" +:+ name)) as [c|] eqn:Hk.
  - rewrite (bind_Ret_sp _ _ _ _ _ (insert_present _ _ _ Hk)).
    unfold at_child. rewrite Hk. by rewrite (set_single_leaf _ _ (Hleaf c eq_refl)).
  - rewrite (bind_Ret_sp _ _ _ _ _ (insert_absent _ _ Hk)).
    unfold at_child. rewrite lookup_insert_eq.
    rewrite set_single_leaf by done. by rewrite insert_insert_eq.
Qed.

Lemma set_attribute_raw_container name v m c :
  m !! ("@" +:+ name) = Some c -> is_leaf_type (type c) = false ->
  set_attribute_raw name v (m_object m) =
  Throw (runtime_error "Set value failed!") (m_object m).
Proof.
  intros Hk Hc. unfold set_attribute_raw.
  rewrite (bind_Ret_sp _ _ _ _ _ (insert_present _ _ _ Hk)).
  unfold at_child. rewrite Hk. rewrite (set_single_container _ _ Hc).
  by rewrite insert_id.
Qed.

Lemma get_attribute_raw_single name v m :
  m !! ("@" +:+ name) = Some (m_single v) ->
  get_attribute_raw name (m_object m) = Ret v (m_object m).
Proof.
  intros Hk. unfold get_attribute_raw.
  rewrite (bind_Ret_sp _ _ _ _ _ (find_present _ _ _ Hk)).
  cbn [iterator_not]. unfold at_child. rewrite Hk. cbn. by rewrite insert_id.
Qed.

Lemma get_attribute_raw_absent name m :
  m !! ("@" +:+ name) = None ->
  get_attribute_raw name (m_object m) = Throw out_of_range (m_object m).
Proof.
  intros Hk. unfold get_attribute_raw.
  by rewrite (bind_Ret_sp _ _ _ _ _ (find_absent _ _ Hk)).
Qed.

Lemma is_attribute_key_name k :
  is_attribute_key k = true -> k = "@" +:+ attribute_name k.
Proof.
  destruct k as [|c k]; [done|]. cbn. intros H%Ascii.eqb_eq. by subst.
Qed.

Lemma attributes_fold (this : Entry) (m : gmap string Entry) :
  (exists res,
      map_fold attributes_step (Ret ∅ this) m = Ret res this /\
      attributes_are_single m /\
      forall name v, res !! name = Some v <-> m !! ("@" +:+ name) = Some (m_single v)) \/
  (map_fold attributes_step (Ret ∅ this) m =
     Throw (runtime_error "This is not block!") this /\
   exists k c, m !! k = Some c /\ is_attribute_key k = true /\ type c <> Single).
Proof.
  apply (map_fold_weak_ind
           (fun acc m =>
              (exists res,
                  acc = Ret res this /\ attributes_are_single m /\
                  forall name v,
                    res !! name = Some v <-> m !! ("@" +:+ name) = Some (m_single v)) \/
              (acc = Throw (runtime_error "This is not block!") this /\
               exists k c, m !! k = Some c /\ is_attribute_key k = true /\
                           type c <> Single))).
  - left. exists ∅. split; [done|]. split.
    + intros k c. by rewrite lookup_empty.
    + intros name v. by rewrite !lookup_empty.
  - intros i x m' acc Hi [(res & -> & Hall & Hres) | (-> & k & c & Hk & Hattr & Hty)].
    + cbn [attributes_step]. destruct (is_attribute_key i) eqn:Hattr.
      * pose proof (is_attribute_key_name _ Hattr) as Hname.
        destruct x as [| v0 | v0 | v0 | l | mo];
          try (right; split; [done|]; exists i; eexists;
               rewrite lookup_insert_eq; by repeat split).
        left. cbn [get_single].
        assert (res !! attribute_name i = None) as Hnone.
        { destruct (res !! attribute_name i) as [v1|] eqn:Hv1; [|done].
          apply Hres in Hv1. rewrite <- Hname in Hv1. congruence. }
        rewrite Hnone. eexists. split; [done|]. split.
        -- intros k c. destruct (decide (i = k)) as [<-|Hne].
           ++ rewrite lookup_insert_eq. by intros [= <-] _.
           ++ rewrite lookup_insert_ne by done. apply Hall.
        -- intros name v. destruct (decide (attribute_name i = name)) as [<-|Hne].
           ++ rewrite lookup_insert_eq, <- Hname, lookup_insert_eq.
              split; intros [= ->]; done.
           ++ rewrite lookup_insert_ne by done.
              rewrite lookup_insert_ne; [apply Hres|].
              intros Heq. apply Hne. by rewrite Heq.
      * left. exists res. split; [done|]. split.
        -- intros k c. destruct (decide (i = k)) as [<-|Hne].
           ++ rewrite lookup_insert_eq. intros _ Hk. congruence.
           ++ rewrite lookup_insert_ne by done. apply Hall.
        -- intros name v. rewrite lookup_insert_ne; [apply Hres|].
           intros ->. by cbn in Hattr.
    + right. split; [done|]. exists k, c. split; [|done].
      rewrite lookup_insert_ne; [done|]. intros ->. congruence.
Qed.

Lemma attributes_of_singles m :
  attributes_are_single m ->
  exists res,
    attributes (m_object m) = Ret res (m_object m) /\
    forall name v, res !! name = Some v <-> m !! ("@" +:+ name) = Some (m_single v).
Proof.
  intros Hall. cbn [attributes].
  destruct (attributes_fold (m_object m) m)
    as [(res & Hres & _ & Hchar) | (_ & k & c & Hk & Hattr & Hty)].
  - by exists res.
  - destruct Hty. by eapply Hall.
Qed.

Lemma attributes_not_single m k c :
  m !! k = Some c -> is_attribute_key k = true -> type c <> Single ->
  attributes (m_object m) = Throw (runtime_error "This is not block!") (m_object m).
Proof.
  intros Hk Hattr Hty. cbn [attributes].
  destruct (attributes_fold (m_object m) m)
    as [(res & _ & Hall & _) | (Hthrow & _)]; [|done].
  destruct Hty. by eapply Hall.
Qed.

(** ** Compositions *)

Lemma insert_then_at_by_key k this :
  type this = Null \/ type this = Object ->
  exists this',
    insert k this = Ret (to_key k) this' /\
    find k this' = Ret (to_key k) this' /\
    at_by_key k this' = Ret (to_key k) this' /\
    is_Some (child this' (to_key k)).
Proof.
  intros (m' & Hins & [c Hc])%(insert_object_Ret k).
  exists (m_object m'). split; [done|].
  split; [by eapply find_present|]. split; [by eapply at_by_key_present|].
  cbn. eauto.
Qed.

Lemma insert_value_then_erase k v m :
  m !! k = None ->
  (_ <- insert_value k (elsewhere v) ;; erase k) (m_object m) = Ret v (m_object m).
Proof.
  intros Hk. rewrite (bind_Ret_sp _ _ _ _ _ (insert_value_object k v m)).
  erewrite erase_present; [|apply lookup_insert_eq].
  by rewrite delete_insert_id.
Qed.

Lemma set_attribute_then_get name v m :
  (forall c, m !! ("@" +:+ name) = Some c -> is_leaf_type (type c) = true) ->
  (_ <- set_attribute_raw name v ;; get_attribute_raw name) (m_object m) =
  Ret v (m_object (<["@" +:+ name := m_single v]> m)).
Proof.
  intros Hleaf. rewrite (bind_Ret_sp _ _ _ _ _ (set_attribute_raw_leaf _ _ _ Hleaf)).
  apply get_attribute_raw_single, lookup_insert_eq.
Qed.

Lemma remove_attribute_then_get name m :
  (_ <- remove_attribute name ;; get_attribute_raw name) (m_object m) =
  Throw out_of_range (m_object (delete ("@" +:+ name) m)).
Proof.
  unfold remove_attribute. destruct (m !! ("@" +:+ name)) as [c|] eqn:Hk.
  - unfold bind at 1. unfold bind at 1. rewrite (erase_present _ _ _ Hk). cbn [ret].
    apply get_attribute_raw_absent, lookup_delete_eq.
  - unfold bind at 1. unfold bind at 1. rewrite (erase_absent _ _ Hk). cbn [ret].
    rewrite delete_id by done. by apply get_attribute_raw_absent.
Qed.

#[local] Instance Type__eq_dec : EqDecision Type_.
Proof. solve_decision. Defined.

Lemma attributes_are_single_check (m : gmap string Entry) :
  bool_decide
    (map_Forall (fun k c => is_attribute_key k = true -> type c = Single) m) = true ->
  attributes_are_single m.
Proof. intros H%bool_decide_eq_true_1 k c Hk. by apply (H k c). Qed.

End sp_facts.

(* ===================================================================== *)
(** * The claims                                                          *)
(* ===================================================================== *)

Import db db_facts.

(** ** C1: reference resolution by fetch *)

(** C1, as the code has it: [Entry::fetch] follows exactly one reference
    hop.  For an entry that holds [Reference(t)] it returns [t], whatever
    [t] holds, and for any other entry it returns the entry itself; the
    store is not touched and no exception is thrown, so there is neither a
    hop limit nor a cyclic-reference failure. *)
Theorem fetch_single_hop (s : Store) (this : loc) (v : Entry) :
  entries s !! this = Some v ->
  fetch this s = Ret (match v with Reference t => t | _ => this end) s /\
  (forall e s', fetch this s <> Throw e s').
Proof.
  intros H. rewrite (fetch_eq _ _ _ H). split; [done|]. intros e s'. discriminate.
Qed.

Lemma fetch_single_hop_witness :
  fetch 1%positive cyclic_store = Ret 2%positive cyclic_store /\
  (forall e s', fetch 1%positive cyclic_store <> Throw e s').
Proof.
  apply (fetch_single_hop cyclic_store 1%positive (Reference 2%positive)).
  reflexivity.
Defined.

(** C1 fails as stated: with A = Reference(B) and B = Reference(A),
    [A.fetch()] returns B, itself a Reference, and [B.fetch()] returns A;
    neither call fails. *)
Lemma fetch_on_cycle_returns :
  fetch 1%positive cyclic_store = Ret 2%positive cyclic_store /\
  entries cyclic_store !! 2%positive = Some (Reference 1%positive) /\
  fetch 2%positive cyclic_store = Ret 1%positive cyclic_store.
Proof. repeat split; reflexivity. Qed.

(** ** C2: as_object by variant *)

(** C2, amended in the Reference case: [as_object] on an Empty entry makes
    a new in-memory object whose [m_self_] is the entry, stores it in the
    entry and returns it; on an Object entry it returns the object held
    and changes nothing; on a Reference whose target is not itself a
    Reference it does exactly what the call on the target does; on a
    Block, Array or scalar it throws [runtime_error("illegal type")] and
    changes nothing. *)
Theorem as_object_by_variant (fuel : nat) (s : Store) (this : loc) (v : Entry) :
  entries s !! this = Some v ->
  match v with
  | Empty =>
      exists o s',
        as_object (S fuel) this s = Ret o s' /\
        objects s !! o = None /\
        objects s' = <[o := mkObject InMemory (Some this) ∅]> (objects s) /\
        entries s' = <[this := Object o]> (entries s) /\
        arrays s' = arrays s
  | Object o =>
      is_Some (objects s !! o) -> as_object (S fuel) this s = Ret o s
  | Reference target =>
      (forall t', entries s !! target <> Some (Reference t')) ->
      as_object (S (S fuel)) this s = as_object (S fuel) target s
  | Block _ | Array _ | Scalar _ =>
      as_object (S fuel) this s = Throw (runtime_error "illegal type") s
  end.
Proof.
  intros H. destruct v as [| target | b | o | a | sc].
  - exists (fresh (dom (objects s))), (promoted_to_object this s).
    split; [by apply as_object_Empty|]. split; [|done].
    apply not_elem_of_dom, is_fresh.
  - intros Hnr. by apply as_object_Reference.
  - by apply as_object_illegal with (v := Block b).
  - intros [x Hx]. by eapply as_object_Object.
  - by apply as_object_illegal with (v := Array a).
  - by apply as_object_illegal with (v := Scalar sc).
Qed.

Lemma as_object_by_variant_witness :
  as_object 2 1%positive (set_entries (fun _ => {[1%positive := Reference 2%positive;
                                                  2%positive := Empty]}) empty_store) =
  as_object 1 2%positive (set_entries (fun _ => {[1%positive := Reference 2%positive;
                                                  2%positive := Empty]}) empty_store).
Proof.
  apply (as_object_by_variant 0 _ 1%positive (Reference 2%positive)).
  - reflexivity.
  - intros t'. vm_compute. discriminate.
Defined.

(** C2 fails as stated on a chain A = Reference(B), B = Reference(C),
    C Empty: the call on the target B returns the new object of C, while
    the call on A, after the same promotion of C, throws
    [std::bad_variant_access]. *)
Lemma as_object_chain_not_forwarded :
  exists o s',
    (forall fuel, as_object (2 + fuel) 2%positive chain_store = Ret o s') /\
    (forall fuel, as_object (3 + fuel) 1%positive chain_store = Throw bad_variant_access s').
Proof.
  eexists _, _. split; intros fuel.
  - rewrite (as_object_fuel_mono 2 (2 + fuel)).
    + vm_compute. reflexivity.
    + lia.
    + vm_compute. discriminate.
  - rewrite (as_object_fuel_mono 3 (3 + fuel)).
    + vm_compute. reflexivity.
    + lia.
    + vm_compute. discriminate.
Qed.

(** ** C4: path indexing never grows an array *)

(** C4 on a tree with a Reference to an Array on the path: the root
    object holds "a", a Reference to an Array with one element, and the
    path is a/1, an index that is not below the size.  [insert] throws
    [std::out_of_range] and changes nothing.  [at] changes nothing either,
    but what it throws is [runtime_error("illegal type")]: the const
    [as_array] tests [index()], which for the entry under "a" is Reference,
    so the walk never comes to the range check.  (This is the defect of C3.
    Where the entry that is reached holds the array itself both walks throw
    [std::out_of_range]: [db_facts.insert_from_index_past_size] and
    [db_facts.at_from_index_past_size].) *)
Theorem at_index_past_size_through_reference (fuel : nat) :
  EntryArrayDefault_size 1%positive ref_array_store = Ret 1%nat ref_array_store /\
  EntryObject_insert (3 + fuel) 1%positive [Key "a"; Index 1] ref_array_store =
  Throw out_of_range ref_array_store /\
  EntryObject_at 1%positive [Key "a"; Index 1] ref_array_store =
  Throw (runtime_error "illegal type") ref_array_store.
Proof.
  split; [reflexivity|]. split.
  - rewrite (EntryObject_insert_fuel_mono 3 (3 + fuel)).
    + vm_compute. reflexivity.
    + lia.
    + vm_compute. discriminate.
  - vm_compute. reflexivity.
Qed.

(** ** C5: resolving a backend from a request *)

(** C5, amended: the scheme of a request is the text before its first
    colon; without a colon it is the text from the last dot on, the dot
    included; without colon and dot it is the whole request.  The empty
    request and an empty scheme give a new in-memory object.  For a scheme
    other than "http" and "https": if the factory has a creator for it the
    object that creator builds is returned, and if not the call throws a
    [runtime_error] whose message ends with the scheme. *)
Theorem backend_resolution (s : Store) (self : option loc) (request : string) :
  (forall a b, request = a +:+ String ":" b -> StdString.occurs ":" a = false ->
               schema_of request = a) /\
  (forall a b, request = a +:+ String "." b ->
               StdString.occurs ":" request = false -> StdString.occurs "." b = false ->
               schema_of request = String "." b) /\
  (StdString.occurs ":" request = false -> StdString.occurs "." request = false ->
   schema_of request = request) /\
  (schema_of request = "" ->
   EntryObject_create self request s =
   Ret (fresh (dom (objects s)))
       (set_objects <[fresh (dom (objects s)) := mkObject InMemory self ∅]> s)) /\
  (schema_of request <> "" -> schema_of request <> "http" ->
   schema_of request <> "https" ->
   if bool_decide (schema_of request ∈ creators s) then
     EntryObject_create self request s =
     Ret (fresh (dom (objects s)))
         (set_objects
            <[fresh (dom (objects s)) := mkObject (Plugin (schema_of request)) self ∅]> s)
   else
     EntryObject_create self request s =
     Throw (runtime_error (unknown_backend_message s +:+ schema_of request)) s).
Proof.
  repeat split.
  - intros a b -> Ha. by apply schema_of_colon.
  - intros a b -> Hc Hd. by apply schema_of_extension.
  - apply schema_of_plain.
  - apply create_empty_schema.
  - intros H0 H1 H2.
    assert (request <> "") as Hr by (by intros ->).
    case_bool_decide.
    + by apply create_registered.
    + by apply create_unregistered.
Qed.

Lemma backend_resolution_witness :
  schema_of "foo.h5" = ".h5" /\
  EntryObject_create None "foo.h5" dot_h5_store =
  Ret 1%positive (set_objects <[1%positive := mkObject (Plugin ".h5") None ∅]> dot_h5_store) /\
  EntryObject_create None "bogus://x" dot_h5_store =
  Throw (runtime_error "Can not create Entry for schema: bogus") dot_h5_store.
Proof.
  destruct (backend_resolution dot_h5_store None "foo.h5") as (_ & Hext & _ & _ & Hfoo).
  destruct (backend_resolution dot_h5_store None "bogus://x") as (_ & _ & _ & _ & Hbogus).
  split; [|split].
  - apply (Hext "foo" "h5"); reflexivity.
  - apply Hfoo; discriminate.
  - apply Hbogus; discriminate.
Defined.

(** C5 fails as stated: the extension of "foo.h5" is cut with its dot, so
    the scheme is ".h5"; in a process whose only backend is registered as
    "h5" the request "foo.h5" is refused. *)
Lemma extension_scheme_keeps_dot :
  schema_of "foo.h5" = ".h5" /\
  schema_of "foo.h5" <> "h5" /\
  EntryObject_create None "foo.h5" h5_store =
  Throw (runtime_error "Can not create Entry for schema: .h5") h5_store.
Proof. split; [reflexivity|]. split; [discriminate|]. reflexivity. Qed.

(** ** C3: insert, then at *)

(** C3 on a tree with a Reference to an Array on the path: the root
    object holds "a", a Reference to an Array with one element.  For the
    path a/0, [insert] returns that element, and [at] on the same path and
    store throws [runtime_error("illegal type")], because the const
    [as_array] tests [index()] where the const [as_object] tests [type()].
    (On a tree without References the two agree:
    [db_facts.EntryObject_insert_then_at].) *)
Theorem insert_then_at_reference_to_array (fuel : nat) :
  EntryObject_insert (3 + fuel) 1%positive [Key "a"; Index 0] ref_array_store =
  Ret 4%positive ref_array_store /\
  EntryObject_at 1%positive [Key "a"; Index 0] ref_array_store =
  Throw (runtime_error "illegal type") ref_array_store.
Proof.
  split.
  - rewrite (EntryObject_insert_fuel_mono 3 (3 + fuel)).
    + vm_compute. reflexivity.
    + lia.
    + vm_compute. discriminate.
  - vm_compute. reflexivity.
Qed.

(** ** C6: insert(key) *)

(** C6: [insert(k)] on an object returns the child that is under [k] when
    there is one and changes nothing; otherwise it makes a new Empty entry,
    puts it under [k] and returns it.  A second [insert(k)] returns the
    same child and changes nothing.  This holds for
    [EntryObjectDefault::insert] and for the older
    [EntryInterfaceInMemory::insert]. *)
Theorem insert_key_existing_or_new
    (s : Store) (o : positive) (x : EntryObject) (k : string)
    (m : gmap string sp.Entry) :
  objects s !! o = Some x ->
  match m_container_ x !! k with
  | Some c => EntryObjectDefault_insert o k s = Ret c s
  | None =>
      exists c s',
        EntryObjectDefault_insert o k s = Ret c s' /\
        entries s !! c = None /\
        entries s' = <[c := Empty]> (entries s) /\
        objects s' =
          <[o := mkObject (impl x) (m_self_ x) (<[k := c]> (m_container_ x))]> (objects s) /\
        arrays s' = arrays s
  end /\
  (forall c s', EntryObjectDefault_insert o k s = Ret c s' ->
                EntryObjectDefault_insert o k s' = Ret c s') /\
  match m !! k with
  | Some _ => sp.insert k (sp.m_object m) = Ret (sp.to_key k) (sp.m_object m)
  | None =>
      sp.insert k (sp.m_object m) =
      Ret (sp.to_key k) (sp.m_object (<[k := sp.m_null]> m))
  end /\
  (forall this p this', sp.insert k this = Ret p this' -> sp.insert k this' = Ret p this').
Proof.
  intros Ho. split; [|split; [|split]].
  - destruct (m_container_ x !! k) as [c|] eqn:Hk.
    + by eapply EntryObjectDefault_insert_old.
    + exists (fresh (dom (entries s))), (with_new_child o x k s).
      split; [by apply EntryObjectDefault_insert_new|].
      split; [|done]. apply not_elem_of_dom, is_fresh.
  - intros c s'. apply EntryObjectDefault_insert_again.
  - destruct (m !! k) as [c|] eqn:Hk.
    + by eapply sp_facts.insert_present.
    + by apply sp_facts.insert_absent.
  - intros this p this'. apply sp_facts.insert_again.
Qed.

Lemma insert_key_existing_or_new_witness :
  EntryObjectDefault_insert 1%positive "a" object_store = Ret 2%positive object_store /\
  sp.insert "a" (sp.m_object {["a" := sp.m_single (sp.s_int 7)]}) =
  Ret (sp.to_key "a") (sp.m_object {["a" := sp.m_single (sp.s_int 7)]}).
Proof.
  destruct (insert_key_existing_or_new object_store 1%positive
              (mkObject InMemory (Some 1%positive) {["a" := 2%positive]}) "a"
              {["a" := sp.m_single (sp.s_int 7)]}) as (Hdb & _ & Hsp & _).
  - reflexivity.
  - split; [exact Hdb | exact Hsp].
Defined.

(** ** C7: pop_back *)

(** C7 on an empty array: [EntryArrayDefault::pop_back] calls
    [std::vector::pop_back] without a test, which on an empty vector is
    undefined behaviour; no [std::out_of_range] is thrown.  (On an array
    that ends in [c] it removes exactly [c]:
    [db_facts.EntryArrayDefault_pop_back_nonempty].) *)
Theorem pop_back_on_empty_array :
  EntryArrayDefault_size 1%positive empty_array_store = Ret 0%nat empty_array_store /\
  EntryArrayDefault_pop_back 1%positive empty_array_store = Halt undefined_behaviour.
Proof. split; reflexivity. Qed.

(** ** C8: indexed access *)

(** C8, amended: [EntryArrayDefault::at(i)] throws [std::out_of_range] and
    leaves the store as it is for every [int] [i] that is negative or not
    below [size()].  The older [Entry::operator[](int)] is different by
    construction: with a negative index on an array, or on a Null entry,
    it appends a new Null entry and returns it; with a non-negative index
    on an entry that is not an array it throws [std::out_of_range]. *)
Theorem indexed_access_out_of_range
    (s : Store) (a : positive) (x : EntryArray) (i : Z) (l : list sp.Entry) (this : sp.Entry) :
  arrays s !! a = Some x ->
  (Z.of_nat (length (a_container_ x)) <= vector_max_size)%Z ->
  (- 2 ^ 31 <= i < 2 ^ 31)%Z ->
  ((i < 0 \/ Z.of_nat (length (a_container_ x)) <= i)%Z ->
   EntryArrayDefault_at a i s = Throw out_of_range s) /\
  ((i < 0)%Z ->
   sp.subscript i (sp.m_array l) =
     Ret (sp.to_index (length l)) (sp.m_array (l ++ [sp.m_null])) /\
   sp.subscript i sp.m_null = Ret (sp.to_index 0) (sp.m_array [sp.m_null])) /\
  ((0 <= i)%Z -> sp.type this <> sp.Array ->
   sp.subscript i this = Throw out_of_range this).
Proof.
  intros Ha Hmax Hint. split; [|split].
  - intros [Hneg | Hbig].
    + eapply EntryArrayDefault_at_negative; eauto. lia.
    + eapply EntryArrayDefault_at_past_size; eauto. lia.
  - intros Hneg. split.
    + by apply sp_facts.subscript_negative_array.
    + by apply sp_facts.subscript_negative_null.
  - apply sp_facts.subscript_not_array.
Qed.

Lemma indexed_access_out_of_range_witness :
  EntryArrayDefault_at 1%positive (-1) array_store = Throw out_of_range array_store /\
  sp.subscript (-1) (sp.m_array [sp.m_single (sp.s_int 7)]) =
  Ret (sp.to_index 1) (sp.m_array [sp.m_single (sp.s_int 7); sp.m_null]).
Proof.
  destruct (indexed_access_out_of_range array_store 1%positive
              (mkArray (Some 1%positive) [2%positive] 1) (-1)
              [sp.m_single (sp.s_int 7)] sp.m_null) as (Hat & Hneg & _).
  - reflexivity.
  - unfold vector_max_size. cbn. lia.
  - lia.
  - split; [apply Hat; lia | apply Hneg; lia].
Defined.

(** C8 fails as stated for [Entry::operator[](int)]: on an array of one
    element the index -1 does not fail; it appends a fresh Null element
    and returns it. *)
Lemma negative_subscript_appends :
  sp.subscript (-1) (sp.m_array [sp.m_single (sp.s_int 7)]) =
  Ret (sp.to_index 1) (sp.m_array [sp.m_single (sp.s_int 7); sp.m_null]) /\
  sp.child (sp.m_array [sp.m_single (sp.s_int 7); sp.m_null]) (sp.to_index 1) =
  Some sp.m_null.
Proof. split; reflexivity. Qed.

(** ** C9: changes of variant *)




(** ** C10: has_a and has_attribute *)

(** C10 on an object with the one child "a" and on an object with the one
    attribute "@unit": [has_a] and [has_attribute] return [!find(...)], and
    [!] of an iterator holds when [find] found nothing; so they answer
    [false] for the key that is there and [true] for a key that is not. *)
Theorem has_a_answers_absence :
  sp.has_a "a" (sp.m_object {["a" := sp.m_null]}) =
    Ret false (sp.m_object {["a" := sp.m_null]}) /\
  sp.has_a "b" (sp.m_object {["a" := sp.m_null]}) =
    Ret true (sp.m_object {["a" := sp.m_null]}) /\
  sp.has_attribute "unit" (sp.m_object {["@unit" := sp.m_single (sp.s_string "m")]}) =
    Ret false (sp.m_object {["@unit" := sp.m_single (sp.s_string "m")]}) /\
  sp.has_attribute "unit" (sp.m_object ∅) = Ret true (sp.m_object ∅).
Proof. repeat split; vm_compute; reflexivity. Qed.

(* ===================================================================== *)
(** * Further properties of the code                                      *)
(* ===================================================================== *)

(** ** sp::db: paths *)

(** X1: on a store without Reference entries, when [EntryObject::insert]
    returns a node for a path, [EntryObject::at] on the same path, in the
    store that [insert] left, returns that very node. *)
Theorem plain_tree_insert_then_at
    (fuel : nat) (o : positive) (path : XPath) (s : Store) (c : loc) (s' : Store) :
  no_references s ->
  EntryObject_insert fuel o path s = Ret c s' ->
  EntryObject_at o path s' = Ret c s'.
Proof. apply EntryObject_insert_then_at. Qed.

Lemma plain_tree_insert_then_at_witness :
  exists c s',
    EntryObject_insert 1 1%positive [Key "x"; Key "y"] object_store = Ret c s' /\
    EntryObject_at 1%positive [Key "x"; Key "y"] s' = Ret c s'.
Proof.
  eexists _, _. split; [vm_compute; reflexivity|].
  apply (plain_tree_insert_then_at 1 1%positive [Key "x"; Key "y"] object_store).
  - apply no_references_check. vm_compute. reflexivity.
  - vm_compute. reflexivity.
Defined.

(** X2: whatever [EntryObject::insert] does for a path, and whether it
    returns or throws, it only adds: an entry that held something holds the
    same afterwards, every object keeps its class, its [m_self_] and all
    its children under their keys, every array keeps its elements, an
    array made on the way is empty, and no Reference is made. *)
Theorem insert_only_extends (fuel : nat) (o : positive) (path : XPath) (s : Store) :
  ensures extends (EntryObject_insert fuel o path) s.
Proof. apply EntryObject_insert_extends. Qed.

(** X3: when the walk of [EntryObject::at] comes to an in-memory object
    that has no child under the next key, it throws [std::out_of_range]
    and the store is as before; [at] creates nothing. *)
Theorem at_missing_key_throws
    (s : Store) (p : loc) (pre : XPath) (k : string) (rest : XPath)
    (q : loc) (s1 : Store) (o : positive) (s2 : Store) (x : EntryObject) :
  at_from p pre s = Ret q s1 ->
  as_object_const q s1 = Ret o s2 ->
  objects s2 !! o = Some x -> impl x = InMemory -> m_container_ x !! k = None ->
  at_from p (pre ++ Key k :: rest) s = Throw out_of_range s.
Proof. apply at_from_missing_key. Qed.

Lemma at_missing_key_throws_witness :
  at_from 1%positive ([] ++ [Key "b"]) object_store = Throw out_of_range object_store.
Proof.
  apply (at_missing_key_throws object_store 1%positive [] "b" [] 1%positive object_store
           1%positive object_store
           (mkObject InMemory (Some 1%positive) {["a" := 2%positive]}));
    reflexivity.
Defined.

(** X28: when a walk comes to an Index segment [i] that is not below the
    size of the array it addresses there, it throws and grows nothing.
    [insert] throws [std::out_of_range]; so does [at] where the entry it
    has come to holds the array itself; where that entry is a Reference,
    [at] throws [runtime_error("illegal type")] whatever is behind it.
    After [insert], returned or thrown, every array of the store has the
    elements it had and an array made on the way has none; [at] leaves the
    whole store as it was. *)
Theorem path_index_past_size
    (fuel : nat) (s : Store) (p : loc) (pre : XPath) (i : Z) (rest : XPath) :
  (i < 2 ^ 31)%Z ->
  (forall q s1 a s2 x,
     insert_from fuel p pre s = Ret q s1 -> as_array fuel q s1 = Ret a s2 ->
     arrays s2 !! a = Some x -> (Z.of_nat (length (a_container_ x)) <= i)%Z ->
     insert_from fuel p (pre ++ Index i :: rest) s = Throw out_of_range s2) /\
  (forall q a x,
     at_from p pre s = Ret q s -> entries s !! q = Some (Array a) ->
     arrays s !! a = Some x -> (Z.of_nat (length (a_container_ x)) <= i)%Z ->
     at_from p (pre ++ Index i :: rest) s = Throw out_of_range s) /\
  (forall q t,
     at_from p pre s = Ret q s -> entries s !! q = Some (Reference t) ->
     at_from p (pre ++ Index i :: rest) s = Throw (runtime_error "illegal type") s) /\
  (forall path, ensures arrays_kept (insert_from fuel p path) s) /\
  (forall path, ensures eq (at_from p path) s).
Proof.
  intros Hint. split_and!.
  - intros q s1 a s2 x Hpre Harr Ha Hi. eapply insert_from_index_past_size; eauto. lia.
  - intros q a x Hpre Hq Ha Hi. eapply at_from_index_past_size; eauto.
    + by eapply as_array_const_eq.
    + lia.
  - intros q t. apply at_from_index_through_reference.
  - intros path. eapply ensures_mono; [apply extends_arrays_kept|].
    apply insert_from_extends.
  - intros path. apply at_from_unchanged.
Qed.

Lemma path_index_past_size_witness :
  insert_from 1 1%positive ([] ++ [Index 1]) array_store = Throw out_of_range array_store /\
  at_from 1%positive ([] ++ [Index 1]) array_store = Throw out_of_range array_store /\
  at_from 2%positive ([] ++ [Index 0]) ref_array_store =
    Throw (runtime_error "illegal type") ref_array_store.
Proof.
  destruct (path_index_past_size 1 array_store 1%positive [] 1 []) as (Hinsert & Hat & _);
    [lia|].
  destruct (path_index_past_size 1 ref_array_store 2%positive [] 0 []) as (_ & _ & Href & _);
    [lia|].
  split; [|split].
  - apply (Hinsert 1%positive array_store 1%positive array_store
             (mkArray (Some 1%positive) [2%positive] 1));
      try reflexivity; try (cbn; lia).
  - apply (Hat 1%positive 1%positive (mkArray (Some 1%positive) [2%positive] 1));
      try reflexivity; try (cbn; lia).
  - apply (Href 2%positive 3%positive); reflexivity.
Defined.

(** ** sp::db: references *)

(** X4: on a set of entries that are References to one another (a cycle
    of any length) [as_object], [as_array] and [as_block] have no result
    at any recursion budget, and throw nothing: each call first calls
    itself on the target, so the recursion of the C++ code has no end to
    come to, which leaves its behaviour undefined.  No cycle is detected. *)
Theorem reference_cycle_unbounded_recursion
    (s : Store) (C : gset loc) (p : loc) (fuel : nat) :
  reference_cycle s C -> p ∈ C ->
  as_object fuel p s = Halt out_of_fuel /\
  as_array fuel p s = Halt out_of_fuel /\
  as_block fuel p s = Halt out_of_fuel.
Proof.
  intros HC Hp. split_and!.
  - by eapply as_object_on_cycle.
  - by eapply as_array_on_cycle.
  - by eapply as_block_on_cycle.
Qed.

Lemma reference_cycle_unbounded_recursion_witness :
  as_object 9 1%positive cyclic_store = Halt out_of_fuel /\
  as_array 9 1%positive cyclic_store = Halt out_of_fuel /\
  as_block 9 1%positive cyclic_store = Halt out_of_fuel.
Proof.
  apply (reference_cycle_unbounded_recursion cyclic_store {[1%positive; 2%positive]}).
  - apply reference_cycle_check. vm_compute. reflexivity.
  - set_solver.
Defined.

(** X5: through a Reference to an Array the two [as_array] disagree: the
    non-const one returns the array of the target and changes nothing, the
    const one throws [runtime_error("illegal type")]. *)
Theorem as_array_const_rejects_reference
    (fuel : nat) (s : Store) (this target : loc) (a : positive) (x : EntryArray) :
  entries s !! this = Some (Reference target) ->
  entries s !! target = Some (Array a) -> arrays s !! a = Some x ->
  as_array (3 + fuel) this s = Ret a s /\
  as_array_const this s = Throw (runtime_error "illegal type") s.
Proof.
  intros H Ht Ha. split.
  - by eapply as_array_Reference_to_Array.
  - by apply as_array_const_illegal with (v := Reference target).
Qed.

Lemma as_array_const_rejects_reference_witness :
  as_array 3 2%positive ref_array_store = Ret 1%positive ref_array_store /\
  as_array_const 2%positive ref_array_store =
  Throw (runtime_error "illegal type") ref_array_store.
Proof.
  apply (as_array_const_rejects_reference 0 ref_array_store 2%positive 3%positive
           1%positive (mkArray (Some 3%positive) [4%positive] 1)); reflexivity.
Defined.

(** X6: through a Reference to an Object the two [as_object] agree: both
    return the object of the target and change nothing. *)
Theorem as_object_through_reference
    (fuel : nat) (s : Store) (this target : loc) (o : positive) (x : EntryObject) :
  entries s !! this = Some (Reference target) ->
  entries s !! target = Some (Object o) -> objects s !! o = Some x ->
  as_object (2 + fuel) this s = Ret o s /\
  as_object_const this s = Ret o s.
Proof.
  intros H Ht Ho. split.
  - by eapply as_object_Reference_to_Object.
  - by eapply as_object_const_Reference_to_Object.
Qed.

Lemma as_object_through_reference_witness :
  as_object 2 1%positive ref_object_store = Ret 1%positive ref_object_store /\
  as_object_const 1%positive ref_object_store = Ret 1%positive ref_object_store.
Proof.
  apply (as_object_through_reference 0 ref_object_store 1%positive 2%positive
           1%positive (mkObject InMemory (Some 2%positive) ∅)); reflexivity.
Defined.

(** X7: [Entry::type] answers Reference exactly for a Reference whose
    target is itself a Reference; through one hop it reports the tag of
    the target. *)
Theorem type_is_reference_only_for_chains (s : Store) (p : loc) :
  Entry_type p s = Ret tag_Reference s <->
  exists t t', entries s !! p = Some (Reference t) /\
               entries s !! t = Some (Reference t').
Proof.
  split.
  - destruct (entries s !! p) as [v|] eqn:Hp.
    + rewrite (Entry_type_eq _ _ _ Hp).
      destruct v as [| t | b | o | a | sc]; try done.
      destruct (entries s !! t) as [[| t' | | | |]|] eqn:Ht; try done.
      intros _. by exists t, t'.
    + unfold Entry_type, fetch. by rewrite (bind_Halt _ _ _ _ (bind_Halt _ _ _ _ (deref_None _ _ Hp))).
  - intros (t & t' & Hp & Ht). by rewrite (Entry_type_eq _ _ _ Hp), Ht.
Qed.

(** ** sp::db: no coercion between the variants *)

(** X8: once the non-const [as_object] has returned for an entry, directly
    or through its one Reference hop, [as_array] and [as_block] on that
    entry throw [runtime_error("illegal type")] and change nothing. *)
Theorem object_is_not_array_or_block
    (fuel fuel' : nat) (s : Store) (p : loc) (o : positive) (s' : Store) :
  as_object fuel p s = Ret o s' ->
  as_array (2 + fuel') p s' = Throw (runtime_error "illegal type") s' /\
  as_block (2 + fuel') p s' = Throw (runtime_error "illegal type") s'.
Proof.
  intros (v & Hv & Ho & _)%as_object_Ret_inv. split.
  - apply as_array_on_object with (o := o). eauto.
  - apply as_block_on_container with (v' := Object o); eauto.
Qed.

Lemma object_is_not_array_or_block_witness :
  as_array 2 1%positive object_store = Throw (runtime_error "illegal type") object_store /\
  as_block 2 1%positive object_store = Throw (runtime_error "illegal type") object_store.
Proof.
  apply (object_is_not_array_or_block 1 0 object_store 1%positive 1%positive object_store).
  reflexivity.
Defined.

(** X9: once the non-const [as_array] has returned for an entry, directly
    or through its one Reference hop, [as_object] and [as_block] on that
    entry throw [runtime_error("illegal type")] and change nothing. *)
Theorem array_is_not_object_or_block
    (fuel fuel' : nat) (s : Store) (p : loc) (a : positive) (s' : Store) :
  as_array fuel p s = Ret a s' ->
  as_object (2 + fuel') p s' = Throw (runtime_error "illegal type") s' /\
  as_block (2 + fuel') p s' = Throw (runtime_error "illegal type") s'.
Proof.
  intros (v & Hv & Ha & _)%as_array_Ret_inv. split.
  - apply as_object_on_array with (a := a). eauto.
  - apply as_block_on_container with (v' := Array a); eauto.
Qed.

Lemma array_is_not_object_or_block_witness :
  as_object 2 1%positive array_store = Throw (runtime_error "illegal type") array_store /\
  as_block 2 1%positive array_store = Throw (runtime_error "illegal type") array_store.
Proof.
  apply (array_is_not_object_or_block 1 0 array_store 1%positive 1%positive array_store).
  reflexivity.
Defined.

(** X10: the non-const [as_array] by variant: on an Empty entry it makes a
    new array without elements, whose self is the entry, stores it in the
    entry and returns it; on an Array it returns the array held and changes
    nothing; on a Block, Object or scalar it throws
    [runtime_error("illegal type")] and changes nothing. *)
Theorem as_array_by_variant (fuel : nat) (s : Store) (this : loc) (v : Entry) :
  entries s !! this = Some v ->
  match v with
  | Empty =>
      exists a s',
        as_array (S fuel) this s = Ret a s' /\
        arrays s !! a = None /\
        arrays s' = <[a := mkArray (Some this) [] 0]> (arrays s) /\
        entries s' = <[this := Array a]> (entries s) /\
        objects s' = objects s
  | Array a => is_Some (arrays s !! a) -> as_array (S fuel) this s = Ret a s
  | Block _ | Object _ | Scalar _ =>
      as_array (S fuel) this s = Throw (runtime_error "illegal type") s
  | Reference _ => True
  end.
Proof.
  intros H. destruct v as [| target | b | o | a | sc]; [| done | | | |].
  - eexists _, _. split; [by apply as_array_Empty|]. split; [|done].
    apply not_elem_of_dom, is_fresh.
  - by apply as_array_illegal with (v := Block b).
  - by apply as_array_illegal with (v := Object o).
  - intros [x Hx]. by eapply as_array_Array.
  - by apply as_array_illegal with (v := Scalar sc).
Qed.

Lemma as_array_by_variant_witness :
  as_array 1 2%positive object_store = Throw (runtime_error "illegal type") object_store.
Proof.
  apply (as_array_by_variant 0 object_store 2%positive (Scalar (Integer 7))).
  reflexivity.
Defined.

(** X11: the non-const [as_block] by variant: on an Empty entry it stores
    a new block, one that no entry held, in the entry and returns it; on a
    Block it returns the block held and changes nothing; on an Object,
    Array or scalar it throws [runtime_error("illegal type")] and changes
    nothing. *)
Theorem as_block_by_variant (fuel : nat) (s : Store) (this : loc) (v : Entry) :
  entries s !! this = Some v ->
  match v with
  | Empty =>
      exists b,
        as_block (S fuel) this s = Ret b (set_entries <[this := Block b]> s) /\
        forall q, entries s !! q <> Some (Block b)
  | Block b => as_block (S fuel) this s = Ret b s
  | Object _ | Array _ | Scalar _ =>
      as_block (S fuel) this s = Throw (runtime_error "illegal type") s
  | Reference _ => True
  end.
Proof.
  intros H. destruct v as [| target | b | o | a | sc]; [| done | | | |].
  - exists (fresh (blocks_of s)). split; [by apply as_block_Empty|].
    intros q Hq%blocks_of_spec. by apply is_fresh in Hq.
  - by apply as_block_Block.
  - by apply as_block_illegal with (v := Object o).
  - by apply as_block_illegal with (v := Array a).
  - by apply as_block_illegal with (v := Scalar sc).
Qed.

Lemma as_block_by_variant_witness :
  as_block 1 1%positive object_store = Throw (runtime_error "illegal type") object_store.
Proof.
  apply (as_block_by_variant 0 object_store 1%positive (Object 1)). reflexivity.
Defined.

(** ** sp::db: the in-memory object *)

(** X12: after [EntryObjectDefault::insert(k)] returned a child, [at(k)]
    returns that child, and [size()] is the old size if [k] was there and
    one more if it was not. *)
Theorem insert_key_then_at_and_size
    (s : Store) (o : positive) (x : EntryObject) (k : string) (c : loc) (s' : Store) :
  objects s !! o = Some x ->
  EntryObjectDefault_insert o k s = Ret c s' ->
  EntryObjectDefault_at o k s' = Ret c s' /\
  EntryObjectDefault_size o s' =
    Ret (if m_container_ x !! k is Some _ then size (m_container_ x)
         else S (size (m_container_ x))) s'.
Proof. apply EntryObjectDefault_insert_then_at. Qed.

Lemma insert_key_then_at_and_size_witness :
  EntryObjectDefault_at 1%positive "a" object_store = Ret 2%positive object_store /\
  EntryObjectDefault_size 1%positive object_store = Ret 1%nat object_store.
Proof.
  exact (insert_key_then_at_and_size object_store 1%positive
           (mkObject InMemory (Some 1%positive) {["a" := 2%positive]}) "a"
           2%positive object_store eq_refl eq_refl).
Defined.



(** X14: [EntryObject::create] returns an object only for a request
    whose scheme is empty or has a registered creator; the object has
    [self] as its [m_self_], and is of the in-memory class in the first
    case and of the class registered for the scheme in the second.  For an
    empty scheme the object is new and without children, and nothing else
    in the store changes. *)
Theorem created_object_by_scheme
    (self : option loc) (request : string) (s : Store) (o : positive) (s' : Store) :
  EntryObject_create self request s = Ret o s' ->
  (exists x, objects s' !! o = Some x /\ m_self_ x = self /\
             (schema_of request = "" /\ impl x = InMemory \/
              schema_of request ∈ creators s /\ impl x = Plugin (schema_of request))) /\
  (schema_of request = "" ->
   objects s !! o = None /\ s' = set_objects <[o := mkObject InMemory self ∅]> s).
Proof. apply create_Ret_self. Qed.

Lemma created_object_by_scheme_witness :
  (exists x,
     objects (set_objects <[1%positive := mkObject InMemory (Some 7%positive) ∅]> empty_store)
       !! 1%positive = Some x /\
     m_self_ x = Some 7%positive /\
     (schema_of ":memory" = "" /\ impl x = InMemory \/
      schema_of ":memory" ∈ creators empty_store /\ impl x = Plugin (schema_of ":memory"))) /\
  (schema_of ":memory" = "" ->
   objects empty_store !! 1%positive = None /\
   set_objects <[1%positive := mkObject InMemory (Some 7%positive) ∅]> empty_store =
   set_objects <[1%positive := mkObject InMemory (Some 7%positive) ∅]> empty_store).
Proof.
  apply (created_object_by_scheme (Some 7%positive) ":memory" empty_store 1%positive).
  reflexivity.
Defined.

(** ** sp::db: the in-memory array *)







(** X18: [resize(num)] on an array of distinct entries whose vector is
    within its capacity and [max_size()].  Above [max_size()] it throws
    [std::length_error] and changes nothing.  From the size up to
    [max_size()] it leaves [num] elements: the old ones hold, position by
    position, what they held, and Empty entries follow; within the
    capacity the old elements are the entries they were, beyond it they
    have moved and the entries they were are gone.  Below the size, when
    the elements from [num] on hold no pointer, these are destroyed and
    the first [num] stay as they are, in the same buffer. *)
Theorem resize_sets_size
    (V : vector_impl) (fuel : nat) (s : Store) (a : positive) (x : EntryArray) (num : Z) :
  arrays s !! a = Some x -> elements_allocated s x ->
  (length (a_container_ x) <= a_capacity x)%nat ->
  (Z.of_nat (a_capacity x) <= max_size V)%Z ->
  ((max_size V < num)%Z ->
   EntryArrayDefault_resize V fuel a num s = Throw length_error s) /\
  ((Z.of_nat (length (a_container_ x)) <= num <= max_size V)%Z ->
   exists s' x',
     EntryArrayDefault_resize V (S fuel) a num s = Ret tt s' /\
     arrays s' !! a = Some x' /\
     EntryArrayDefault_size a s' = Ret (Z.to_nat num) s' /\
     values s' (a_container_ x') =
       values s (a_container_ x)
       ++ replicate (Z.to_nat num - length (a_container_ x)) (Some Empty) /\
     ((num <= Z.of_nat (a_capacity x))%Z ->
      take (length (a_container_ x)) (a_container_ x') = a_container_ x) /\
     ((Z.of_nat (a_capacity x) < num)%Z ->
      Forall (fun c => entries s' !! c = None) (a_container_ x))) /\
  ((0 <= num <= Z.of_nat (length (a_container_ x)))%Z ->
   Forall (fun c => exists v, entries s !! c = Some v /\ owns_nothing v)
          (drop (Z.to_nat num) (a_container_ x)) ->
   exists s',
     EntryArrayDefault_resize V (S fuel) a num s = Ret tt s' /\
     arrays s' !! a =
       Some (mkArray (a_self_ x) (take (Z.to_nat num) (a_container_ x)) (a_capacity x)) /\
     Forall (fun c => entries s' !! c = None) (drop (Z.to_nat num) (a_container_ x)) /\
     values s' (take (Z.to_nat num) (a_container_ x)) =
       values s (take (Z.to_nat num) (a_container_ x))).
Proof.
  intros Ha Hwf Hlen Hcap. split_and!.
  - intros Hmax. apply (EntryArrayDefault_resize_length_error V fuel s a x num Ha Hlen). lia.
  - intros Hnum.
    destruct (EntryArrayDefault_resize_grow_spec V fuel s a x num Ha Hwf Hlen Hnum)
      as (s' & x' & Hrun & Ha' & _ & _ & Hsize & Hvals & Hroom & Hfull).
    exists s', x'. split; [done|]. split; [done|]. split; [|done].
    rewrite (EntryArrayDefault_size_eq _ _ _ Ha').
    assert (length (a_container_ x') = Z.to_nat num) as -> by lia. done.
  - intros Hnum Hleaf. by apply EntryArrayDefault_resize_shrink_spec.
Qed.

Lemma resize_sets_size_witness :
  EntryArrayDefault_resize (libstdcxx 40) 0 1%positive (2 ^ 62) two_element_store =
    Throw length_error two_element_store /\
  (exists s' x',
     EntryArrayDefault_resize (libstdcxx 40) 1 1%positive 5 two_element_store = Ret tt s' /\
     arrays s' !! 1%positive = Some x' /\
     EntryArrayDefault_size 1%positive s' = Ret 5%nat s' /\
     values s' (a_container_ x') =
       [Some (Scalar (Integer 7)); Some Empty; Some Empty; Some Empty; Some Empty] /\
     entries s' !! 2%positive = None) /\
  (exists s',
     EntryArrayDefault_resize (libstdcxx 40) 1 1%positive 1 two_element_store = Ret tt s' /\
     arrays s' !! 1%positive = Some (mkArray (Some 1%positive) [2%positive] 2) /\
     entries s' !! 3%positive = None).
Proof.
  destruct (resize_sets_size (libstdcxx 40) 0 two_element_store 1%positive
              (mkArray (Some 1%positive) [2%positive; 3%positive] 2) (2 ^ 62))
    as (Hlong & _ & _);
    [reflexivity | apply elements_allocated_check; vm_compute; reflexivity
     | cbn; lia | vm_compute; discriminate |].
  destruct (resize_sets_size (libstdcxx 40) 0 two_element_store 1%positive
              (mkArray (Some 1%positive) [2%positive; 3%positive] 2) 5)
    as (_ & Hgrow & _);
    [reflexivity | apply elements_allocated_check; vm_compute; reflexivity
     | cbn; lia | vm_compute; discriminate |].
  destruct (resize_sets_size (libstdcxx 40) 0 two_element_store 1%positive
              (mkArray (Some 1%positive) [2%positive; 3%positive] 2) 1)
    as (_ & _ & Hshrink);
    [reflexivity | apply elements_allocated_check; vm_compute; reflexivity
     | cbn; lia | vm_compute; discriminate |].
  split; [|split].
  - apply Hlong. vm_compute. reflexivity.
  - destruct Hgrow as (s' & x' & Hrun & Ha & Hsize & Hvals & _ & Hmoved).
    { split; vm_compute; discriminate. }
    exists s', x'. split; [exact Hrun|]. split; [exact Ha|]. split; [exact Hsize|].
    split; [exact Hvals|].
    apply (proj1 (Forall_forall _ _) (Hmoved ltac:(vm_compute; reflexivity))).
    apply list_elem_of_here.
  - destruct Hshrink as (s' & Hrun & Ha & Hgone & _).
    { split; vm_compute; discriminate. }
    { repeat constructor. exists Empty. split; [reflexivity | exact I]. }
    exists s'. split; [exact Hrun|]. split; [exact Ha|].
    apply (proj1 (Forall_forall _ _) Hgone). apply list_elem_of_here.
Defined.

(** ** sp: leaves *)

(** X19: on an entry of a leaf type (Null, Single, Tensor or Block) a
    setter followed by the getter of the same kind returns the value that
    was set, for [set_single], [set_tensor] and [set_block]. *)
Theorem leaf_set_then_get
    (this : sp.Entry) (v : sp.single_t) (t : sp.tensor_t) (b : sp.block_t) :
  sp.is_leaf_type (sp.type this) = true ->
  (_ <- sp.set_single v ;; sp.get_single) this = Ret v (sp.m_single v) /\
  (_ <- sp.set_tensor t ;; sp.get_tensor) this = Ret t (sp.m_tensor t) /\
  (_ <- sp.set_block b ;; sp.get_block) this = Ret b (sp.m_block b).
Proof.
  intros H. split_and!.
  - by apply sp_facts.set_then_get_single.
  - by apply sp_facts.set_then_get_tensor.
  - by apply sp_facts.set_then_get_block.
Qed.

Lemma leaf_set_then_get_witness :
  (_ <- sp.set_single (sp.s_int 1) ;; sp.get_single) (sp.m_tensor (sp.tensor [] [])) =
    Ret (sp.s_int 1) (sp.m_single (sp.s_int 1)) /\
  (_ <- sp.set_tensor (sp.tensor [] []) ;; sp.get_tensor) (sp.m_tensor (sp.tensor [] [])) =
    Ret (sp.tensor [] []) (sp.m_tensor (sp.tensor [] [])) /\
  (_ <- sp.set_block (sp.block [] []) ;; sp.get_block) (sp.m_tensor (sp.tensor [] [])) =
    Ret (sp.block [] []) (sp.m_block (sp.block [] [])).
Proof.
  apply (leaf_set_then_get (sp.m_tensor (sp.tensor [] []))). reflexivity.
Defined.

(** ** sp: children by key *)

(** X20: on a Null or Object entry, [insert(key)] returns an iterator to
    the child under the key, and [find(key)] and [at(key)] then return
    the same iterator. *)
Theorem legacy_insert_then_find (k : string) (this : sp.Entry) :
  sp.type this = sp.Null \/ sp.type this = sp.Object ->
  exists this',
    sp.insert k this = Ret (sp.to_key k) this' /\
    sp.find k this' = Ret (sp.to_key k) this' /\
    sp.at_by_key k this' = Ret (sp.to_key k) this' /\
    is_Some (sp.child this' (sp.to_key k)).
Proof. apply sp_facts.insert_then_at_by_key. Qed.

Lemma legacy_insert_then_find_witness :
  exists this',
    sp.insert "a" sp.m_null = Ret (sp.to_key "a") this' /\
    sp.find "a" this' = Ret (sp.to_key "a") this' /\
    sp.at_by_key "a" this' = Ret (sp.to_key "a") this' /\
    is_Some (sp.child this' (sp.to_key "a")).
Proof. apply (legacy_insert_then_find "a" sp.m_null). left. reflexivity. Defined.

(** X21: [erase(key)] on an object takes the child out and returns it,
    and [find(key)] is then null; for a key that is not there, and on an
    entry that is not an object, it returns a Null entry and changes
    nothing. *)
Theorem legacy_erase_effect (k : string) (m : gmap string sp.Entry) (this : sp.Entry) :
  (forall c, m !! k = Some c ->
     sp.erase k (sp.m_object m) = Ret c (sp.m_object (delete k m)) /\
     sp.find k (sp.m_object (delete k m)) =
       Ret sp.null_iterator (sp.m_object (delete k m))) /\
  (m !! k = None -> sp.erase k (sp.m_object m) = Ret sp.m_null (sp.m_object m)) /\
  (sp.type this <> sp.Object -> sp.erase k this = Ret sp.m_null this).
Proof.
  split_and!.
  - intros c Hk. split; [by apply sp_facts.erase_present|].
    apply sp_facts.find_absent, lookup_delete_eq.
  - apply sp_facts.erase_absent.
  - apply sp_facts.erase_not_object.
Qed.

Lemma legacy_erase_effect_witness :
  sp.erase "a" (sp.m_object {["a" := sp.m_single (sp.s_int 7)]}) =
    Ret (sp.m_single (sp.s_int 7))
        (sp.m_object (delete "a" {["a" := sp.m_single (sp.s_int 7)]})) /\
  sp.erase "a" (sp.m_object ∅) = Ret sp.m_null (sp.m_object ∅) /\
  sp.erase "a" (sp.m_single (sp.s_int 7)) = Ret sp.m_null (sp.m_single (sp.s_int 7)).
Proof.
  destruct (legacy_erase_effect "a" {["a" := sp.m_single (sp.s_int 7)]}
              (sp.m_single (sp.s_int 7))) as (Hpresent & _ & Hother).
  destruct (legacy_erase_effect "a" ∅ sp.m_null) as (_ & Habsent & _).
  split_and!.
  - apply (Hpresent (sp.m_single (sp.s_int 7))). reflexivity.
  - apply Habsent. reflexivity.
  - apply Hother. discriminate.
Defined.

(** X22: [insert(key, other)] puts under the key a copy of what [other]
    refers to, read after [insert(key)] has run, whether or not a child
    was there: it overwrites, where [insert(key)] keeps.  For an [other]
    that is no part of the object this is the value handed in, and when
    the key was new [erase(key)] right after returns it and gives the
    object back as it was.  For [other] the object itself the copy has the
    key already: [e.insert(k, e)] on an object without [k] leaves a child
    that holds Null under [k] beside the old children.  On an entry that is
    neither Null nor an object the call dereferences the null iterator. *)
Theorem insert_value_overwrites
    (k : string) (v : sp.Entry) (m : gmap string sp.Entry)
    (other : sp.cref) (this : sp.Entry) :
  sp.insert_value k (sp.elsewhere v) (sp.m_object m) =
    Ret (sp.to_key k) (sp.m_object (<[k := v]> m)) /\
  (m !! k = None ->
   (_ <- sp.insert_value k (sp.elsewhere v) ;; sp.erase k) (sp.m_object m) =
     Ret v (sp.m_object m)) /\
  sp.insert_value k (sp.within []) (sp.m_object m) =
    Ret (sp.to_key k)
        (sp.m_object (if m !! k is Some _ then <[k := sp.m_object m]> m
                      else <[k := sp.m_object (<[k := sp.m_null]> m)]> m)) /\
  sp.insert_value k (sp.within []) sp.m_null =
    Ret (sp.to_key k) (sp.m_object {[k := sp.m_object {[k := sp.m_null]}]}) /\
  (sp.type this <> sp.Null -> sp.type this <> sp.Object ->
   sp.insert_value k other this = Halt undefined_behaviour).
Proof.
  split_and!.
  - apply sp_facts.insert_value_object.
  - apply sp_facts.insert_value_then_erase.
  - apply sp_facts.insert_value_itself.
  - apply sp_facts.insert_value_itself_null.
  - apply sp_facts.insert_value_not_object.
Qed.

Lemma insert_value_overwrites_witness :
  sp.insert_value "a" (sp.elsewhere sp.m_null)
    (sp.m_object {["a" := sp.m_single (sp.s_int 7)]}) =
    Ret (sp.to_key "a") (sp.m_object (<["a" := sp.m_null]> {["a" := sp.m_single (sp.s_int 7)]})) /\
  (_ <- sp.insert_value "a" (sp.elsewhere (sp.m_single (sp.s_int 7))) ;; sp.erase "a")
    (sp.m_object ∅) =
    Ret (sp.m_single (sp.s_int 7)) (sp.m_object ∅) /\
  sp.insert_value "a" (sp.within []) (sp.m_object ∅) =
    Ret (sp.to_key "a") (sp.m_object (<["a" := sp.m_object (<["a" := sp.m_null]> ∅)]> ∅)) /\
  sp.insert_value "a" (sp.within []) (sp.m_array []) = Halt undefined_behaviour.
Proof.
  destruct (insert_value_overwrites "a" sp.m_null {["a" := sp.m_single (sp.s_int 7)]}
              (sp.within []) (sp.m_array [])) as (Hover & _ & _ & _ & Hub).
  destruct (insert_value_overwrites "a" (sp.m_single (sp.s_int 7)) ∅ (sp.within [])
              sp.m_null) as (_ & Hround & Hself & _).
  split_and!.
  - exact Hover.
  - apply Hround. reflexivity.
  - exact Hself.
  - apply Hub; discriminate.
Defined.

(** ** sp: attributes *)

(** X24: on an object whose child "@name", if there is one, is of a leaf
    type, [set_attribute_raw(name, v)] followed by
    [get_attribute_raw(name)] returns [v]; the object then holds
    Single [v] under "@name" and is otherwise unchanged. *)
Theorem set_then_get_attribute
    (name : string) (v : sp.single_t) (m : gmap string sp.Entry) :
  (forall c, m !! ("@" +:+ name) = Some c -> sp.is_leaf_type (sp.type c) = true) ->
  (_ <- sp.set_attribute_raw name v ;; sp.get_attribute_raw name) (sp.m_object m) =
  Ret v (sp.m_object (<["@" +:+ name := sp.m_single v]> m)).
Proof. apply sp_facts.set_attribute_then_get. Qed.

Lemma set_then_get_attribute_witness :
  (_ <- sp.set_attribute_raw "unit" (sp.s_string "m") ;; sp.get_attribute_raw "unit")
    (sp.m_object ∅) =
  Ret (sp.s_string "m") (sp.m_object (<["@unit" := sp.m_single (sp.s_string "m")]> ∅)).
Proof.
  apply (set_then_get_attribute "unit" (sp.s_string "m") ∅).
  intros c H. by rewrite lookup_empty in H.
Defined.

(** X25: when every child of an object under a key that starts with '@'
    is a Single, [attributes()] returns, changes nothing, and its result
    holds [v] under [name] exactly when the object holds Single [v] under
    "@name". *)
Theorem attributes_lists_single_children (m : gmap string sp.Entry) :
  sp.attributes_are_single m ->
  exists res,
    sp.attributes (sp.m_object m) = Ret res (sp.m_object m) /\
    forall name v, res !! name = Some v <-> m !! ("@" +:+ name) = Some (sp.m_single v).
Proof. apply sp_facts.attributes_of_singles. Qed.

Lemma attributes_lists_single_children_witness :
  exists res,
    sp.attributes (sp.m_object {["@unit" := sp.m_single (sp.s_string "m");
                                 "a" := sp.m_array []]}) =
      Ret res (sp.m_object {["@unit" := sp.m_single (sp.s_string "m");
                             "a" := sp.m_array []]}) /\
    forall name v,
      res !! name = Some v <->
      ({["@unit" := sp.m_single (sp.s_string "m"); "a" := sp.m_array []]}
         : gmap string sp.Entry) !! ("@" +:+ name) = Some (sp.m_single v).
Proof.
  apply (attributes_lists_single_children
           {["@unit" := sp.m_single (sp.s_string "m"); "a" := sp.m_array []]}).
  apply sp_facts.attributes_are_single_check. vm_compute. reflexivity.
Defined.

(** X26: when some child of an object under a key that starts with '@'
    is not a Single, [attributes()] throws
    [runtime_error("This is not block!")] and changes nothing. *)
Theorem attributes_rejects_other_children
    (m : gmap string sp.Entry) (k : string) (c : sp.Entry) :
  m !! k = Some c -> sp.is_attribute_key k = true -> sp.type c <> sp.Single ->
  sp.attributes (sp.m_object m) =
  Throw (runtime_error "This is not block!") (sp.m_object m).
Proof. apply sp_facts.attributes_not_single. Qed.

Lemma attributes_rejects_other_children_witness :
  sp.attributes (sp.m_object {["@dims" := sp.m_array []]}) =
  Throw (runtime_error "This is not block!") (sp.m_object {["@dims" := sp.m_array []]}).
Proof.
  apply (attributes_rejects_other_children {["@dims" := sp.m_array []]} "@dims"
           (sp.m_array [])); [reflexivity | reflexivity | discriminate].
Defined.

(** X27: after [remove_attribute(name)], which never fails on an object,
    [get_attribute_raw(name)] throws [std::out_of_range]. *)
Theorem remove_then_get_attribute (name : string) (m : gmap string sp.Entry) :
  (_ <- sp.remove_attribute name ;; sp.get_attribute_raw name) (sp.m_object m) =
  Throw out_of_range (sp.m_object (delete ("@" +:+ name) m)).
Proof. apply sp_facts.remove_attribute_then_get. Qed.
